(** * ParallelMandelbrot: the work-distribution pipeline of [main.go]

    A shallow embedding of the Go program: the package-level parameters
    become a [config] record, Go's 64-bit [int] is [Z] with its wrap-around
    written out, the three channels are FIFO lists with a capacity, and the
    goroutines are the threads of an interleaving step function. *)

From Stdlib Require Import QArith Qcanon.
From Equations Require Import Equations.
From stdpp Require Import base numbers list gmap strings pretty sorting.

Local Open Scope Z_scope.

(** ** Go's [int] on a 64-bit platform *)

Module GoInt.

Definition min_int : Z := - 2 ^ 63.
Definition max_int : Z := 2 ^ 63 - 1.

(** Two's complement wrap-around of an arithmetic result. *)
Definition wrap (z : Z) : Z := (z + 2 ^ 63) `mod` 2 ^ 64 - 2 ^ 63.

Definition add (a b : Z) : Z := wrap (a + b).
Definition sub (a b : Z) : Z := wrap (a - b).
Definition mul (a b : Z) : Z := wrap (a * b).

(** [a / b] truncates toward zero and panics on a zero divisor. *)
Definition div (a b : Z) : option Z :=
  if decide (b = 0) then None else Some (wrap (a `quot` b)).

(** [a % b] has the sign of [a] and panics on a zero divisor. *)
Definition rem (a b : Z) : option Z :=
  if decide (b = 0) then None else Some (a `rem` b).

(** [uint8(v)] keeps the low eight bits. *)
Definition uint8 (v : Z) : Z := v `mod` 256.

(** [int(math.Sqrt(float64(n)))].  For [0 <= n < 2^52] the conversion to
    [float64] is exact and the correctly rounded square root, truncated, is
    the integer square root (from [2^52] on the rounding can reach the next
    integer, as at [(2^26+1)^2 - 1]).  For a negative [n] the source converts
    a NaN, with an implementation-defined result.  The embedding is used on
    the first range only, see [valid_config]. *)
Definition sqrt (n : Z) : Z := Z.sqrt n.

Definition in_range (z : Z) : Prop := min_int ≤ z ≤ max_int.

End GoInt.

(** ** Data model *)

(** [type workRange struct { minX, maxX, minY, maxY int }] *)
Record workRange := WorkRange { minX : Z; maxX : Z; minY : Z; maxY : Z }.

(** [color.RGBA] *)
Record RGBA := MkRGBA { R : Z; G : Z; B : Z; A : Z }.

(** [type pixel struct { x, y int; col color.RGBA }], the coordinates
    named [px] and [py]. *)
Record pixel := Pixel { px : Z; py : Z; col : RGBA }.

(** The package-level [var] block.  [IMG_SCALE] only scales [width] and
    [height]; the plane bounds and [bound] are floating-point values and
    live in [Complex64Ops] below; [printWorkItems] only prints. *)
Record config := Config {
  MAX_ITER : Z;
  width : Z;
  height : Z;
  numWorkTasks : Z;
  numThreads : Z;
  printCalculatingProgress : bool;
  printDrawingProgress : bool
}.

(** [numOfPixels = width * height] *)
Definition numOfPixels (cfg : config) : Z := GoInt.mul (width cfg) (height cfg).

#[global] Instance workRange_eq_dec : EqDecision workRange.
Proof. solve_decision. Defined.
#[global] Instance RGBA_eq_dec : EqDecision RGBA.
Proof. solve_decision. Defined.
#[global] Instance pixel_eq_dec : EqDecision pixel.
Proof. solve_decision. Defined.

(** A run configuration is valid when the image is not empty, the counts are
    positive, and the sizes fit the machine: the pixel count and the colour
    scaling do not overflow, and the task count is exactly representable as a
    [float64]. *)
Record valid_config (cfg : config) : Prop := ValidConfig {
  valid_width : 1 ≤ width cfg;
  valid_height : 1 ≤ height cfg;
  valid_pixels : width cfg * height cfg ≤ GoInt.max_int;
  valid_tasks : 1 ≤ numWorkTasks cfg < 2 ^ 52;
  valid_threads : 1 ≤ numThreads cfg;
  valid_iter : 1 ≤ MAX_ITER cfg;
  valid_iter_scale : MAX_ITER cfg * 255 ≤ GoInt.max_int
}.

(** The pixel at column [x], row [y] lies inside the region (half-open). *)
Definition contains (w : workRange) (p : Z * Z) : Prop :=
  (minX w ≤ p.1 < maxX w) ∧ (minY w ≤ p.2 < maxY w).

#[global] Instance contains_dec w p : Decision (contains w p).
Proof. unfold contains. apply _. Defined.

Definition in_image (cfg : config) (p : Z * Z) : Prop :=
  (0 ≤ p.1 < width cfg) ∧ (0 ≤ p.2 < height cfg).

#[global] Instance in_image_dec cfg p : Decision (in_image cfg p).
Proof. unfold in_image. apply _. Defined.

(** ** RegionPartitioner: [workCreator] *)

(** The values a loop [for i := lo; i < hi; i++] takes. *)
Definition for_range (lo hi : Z) : list Z := seqZ lo (hi - lo).

(** The region the loop body builds at grid cell [(i, j)]. *)
Definition work_item (work_width work_height i j : Z) : workRange :=
  WorkRange (GoInt.mul i work_width) (GoInt.mul (GoInt.add i 1) work_width)
            (GoInt.mul j work_height) (GoInt.mul (GoInt.add j 1) work_height).

(** The regions sent to [workBuffer], in sending order; [None] is the
    division panic of [width / r]. *)
Definition workCreator (cfg : config) : option (list workRange) :=
  let r := GoInt.sqrt (numWorkTasks cfg) in
  work_width ← GoInt.div (width cfg) r;
  work_height ← GoInt.div (height cfg) r;
  Some (i ← for_range 0 r;
        j ← for_range 0 r;
        [work_item work_width work_height i j]).

(** The same grid written with unbounded arithmetic. *)
Definition grid_cell (work_width work_height i j : Z) : workRange :=
  WorkRange (i * work_width) ((i + 1) * work_width)
            (j * work_height) ((j + 1) * work_height).

Definition grid (r work_width work_height : Z) : list workRange :=
  i ← for_range 0 r; j ← for_range 0 r; [grid_cell work_width work_height i j].


(** ** PixelComputer: [mandelbrotCalc] *)

(** The floating-point operations the program performs on [complex64] and
    [float64] values.  Their results are not modelled; the loop structure
    around them is. *)
Class Complex64Ops := {
  complex64 : Type;
  (** [complex64(0)] *)
  c_zero : complex64;
  (** [z*z + c] *)
  c_sq_add : complex64 → complex64 → complex64;
  (** [math.Abs(float64(real(z))) <= bound] *)
  re_within_bound : complex64 → bool;
  (** [complex64(complex(RE_START + float64(x)/float64(width)*(RE_END-RE_START),
                         IM_START + float64(y)/float64(height)*(IM_END-IM_START)))] *)
  plane_point : config → Z → Z → complex64
}.

Section Pipeline.
Context `{ops : Complex64Ops}.
Variable cfg : config.

(** The [for] loop of [mandelbrotCalc], entered with the current [z] and
    [n].  The counter stays below [MAX_ITER], so [n += 1] does not wrap. *)
Equations? mandelbrot_loop (c z : complex64) (n : Z) : Z
  by wf (Z.to_nat (MAX_ITER cfg - n)) lt :=
  mandelbrot_loop c z n
    with decide (re_within_bound z = true ∧ n < MAX_ITER cfg) => {
    | left _ := mandelbrot_loop c (c_sq_add z c) (n + 1);
    | right _ := n }.
Proof. lia. Qed.

Definition mandelbrotCalc (c : complex64) : Z := mandelbrot_loop c c_zero 0.

(** ** Worker: [calculatorWorker] *)

(** [val = 255 - int(val*255/MAX_ITER)] and the colour built from it; [None]
    is the division panic. *)
Definition pixel_color (n : Z) : option RGBA :=
  q ← GoInt.div (GoInt.mul n 255) (MAX_ITER cfg);
  let val := GoInt.sub 255 q in
  Some (MkRGBA (GoInt.uint8 val) (GoInt.uint8 val) (GoInt.uint8 val) 254).

(** The body of the inner loop: the pixel sent for [(x, y)]. *)
Definition compute_pixel (xy : Z * Z) : option pixel :=
  col ← pixel_color (mandelbrotCalc (plane_point cfg xy.1 xy.2));
  Some (Pixel xy.1 xy.2 col).

(** The coordinates the two nested loops visit, in visiting order:
    [x] is the outer loop, [y] the inner one. *)
Definition visit_order (work : workRange) : list (Z * Z) :=
  x ← for_range (minX work) (maxX work);
  y ← for_range (minY work) (maxY work);
  [(x, y)].

(** The pixels a worker sends on [pixelBuffer], in sending order. *)
Definition worker_pixels (work : workRange) : option (list pixel) :=
  mapM compute_pixel (visit_order work).

(** What a worker does on its two channels. *)
Inductive worker_op :=
| SendPixel (p : pixel)
| SendFreeThread.

Definition calculatorWorker (work : workRange) : option (list worker_op) :=
  ps ← worker_pixels work;
  Some ((SendPixel <$> ps) ++ [SendFreeThread]).

End Pipeline.

(** The coordinates of a pixel result. *)
Definition coord (p : pixel) : Z * Z := (px p, py p).

(** The progress test of [drawingWorker] divides by [numOfPixels/10]; it
    is skipped when progress is not printed. *)
Definition no_progress_panic (cfg : config) : Prop :=
  printDrawingProgress cfg = false ∨ 10 ≤ numOfPixels cfg.

(** ** Reference definitions for the worker *)

Section Reference.
Context `{ops : Complex64Ops}.
Variable cfg : config.

(** The sequence [Z(0) = 0], [Z(k+1) = Z(k)^2 + c]. *)
Definition orbit (c : complex64) (k : nat) : complex64 :=
  Nat.iter k (λ z, c_sq_add z c) c_zero.

(** The intensity [255 - n*255/MAX_ITER] of an iteration count. *)
Definition shade (n : Z) : Z := 255 - (n * 255) `div` MAX_ITER cfg.

(** The grey pixel of iteration count [n] at [(x, y)]. *)
Definition pixel_at (q : Z * Z) : pixel :=
  let v := shade (mandelbrotCalc cfg (plane_point cfg q.1 q.2)) in
  Pixel q.1 q.2 (MkRGBA v v v 254).

End Reference.

(** Column before column, and top to bottom within a column. *)
Definition x_major_lt (a b : Z * Z) : Prop :=
  a.1 < b.1 ∨ (a.1 = b.1 ∧ a.2 < b.2).

(** The order the specification names, row by row: [y] outer, [x] inner. *)
Definition row_major_order (work : workRange) : list (Z * Z) :=
  y ← for_range (minY work) (maxY work);
  x ← for_range (minX work) (maxX work);
  [(x, y)].

(** ** The running pipeline *)

(** Where [calculatorWorkerStarter] stands. *)
Inductive starter_pc :=
| Preload (t : Z)                        (** head of the token loop *)
| RangeRecv (workCounter : Z)            (** [for w := range workBuffer] *)
| TakeToken (w : workRange) (workCounter : Z)   (** [<-freeThreads] *)
| Spawn (w : workRange) (workCounter : Z)       (** [go calculatorWorker(...)] *)
| StarterReturned.

Inductive proc_status := Running | Panicked | Exited.

(** How the process ends: [main] returns; a goroutine panics, which stops
    the whole process; or every goroutine, [main] among them, is blocked on
    a channel or on [wg.Wait()], and the Go runtime stops the process with
    "fatal error: all goroutines are asleep - deadlock!". *)
Inductive process_end := MainReturned | PanicAbort | DeadlockAbort.

#[global] Instance proc_status_eq_dec : EqDecision proc_status.
Proof. solve_decision. Defined.

(** The goroutines a scheduler can pick. *)
Inductive thread := TStarter | TWorker (i : nat) | TDrawer | TMain.

Section System.
Context `{ops : Complex64Ops}.
Variable cfg : config.

(** The channels, the goroutines and the drawer's variables.  A running
    worker is the list of channel operations it still has to perform
    ([None]: it is about to panic).  The last three fields record history
    and are read by no step. *)
Record state := State {
  status : proc_status;
  workBuffer : list workRange;
  freeThreads : list bool;
  pixelBuffer : list pixel;
  starter : starter_pc;
  workers : list (option (list worker_op));
  image : gmap (Z * Z) RGBA;
  pixelCount : Z;
  drawer_done : bool;
  dispatched : list workRange;
  emitted : list pixel;
  consumed : list pixel
}.

Definition panic (s : state) : state :=
  State Panicked (workBuffer s) (freeThreads s) (pixelBuffer s) (starter s)
    (workers s) (image s) (pixelCount s) (drawer_done s)
    (dispatched s) (emitted s) (consumed s).

(** [image.Set(x, y, c)]: points outside the rectangle are ignored. *)
Definition image_set (p : pixel) (img : gmap (Z * Z) RGBA) : gmap (Z * Z) RGBA :=
  if decide (in_image cfg (px p, py p)) then <[(px p, py p) := col p]> img else img.

(** The progress test [workCounter%(workCounter/10+1) == 0]. *)
Definition starter_progress (workCounter : Z) : option bool :=
  q ← GoInt.div workCounter 10;
  m ← GoInt.rem workCounter (GoInt.add q 1);
  Some (bool_decide (m = 0)).

(** One step of [calculatorWorkerStarter]; [None] when it is blocked. *)
Definition calculatorWorkerStarter_step (s : state) : option state :=
  match starter s with
  | Preload t =>
      if decide (t < numThreads cfg) then
        if decide (Z.of_nat (length (freeThreads s)) < numThreads cfg) then
          Some (State (status s) (workBuffer s) (freeThreads s ++ [true])
                  (pixelBuffer s) (Preload (t + 1)) (workers s) (image s)
                  (pixelCount s) (drawer_done s)
                  (dispatched s) (emitted s) (consumed s))
        else None
      else
        Some (State (status s) (workBuffer s) (freeThreads s) (pixelBuffer s)
                (RangeRecv (numWorkTasks cfg)) (workers s) (image s)
                (pixelCount s) (drawer_done s)
                (dispatched s) (emitted s) (consumed s))
  | RangeRecv wc =>
      match workBuffer s with
      | [] => None
      | w :: rest =>
          Some (State (status s) rest (freeThreads s) (pixelBuffer s)
                  (TakeToken w wc) (workers s) (image s)
                  (pixelCount s) (drawer_done s)
                  (dispatched s) (emitted s) (consumed s))
      end
  | TakeToken w wc =>
      match freeThreads s with
      | [] => None
      | _ :: rest =>
          Some (State (status s) (workBuffer s) rest (pixelBuffer s)
                  (Spawn w wc) (workers s) (image s)
                  (pixelCount s) (drawer_done s)
                  (dispatched s) (emitted s) (consumed s))
      end
  | Spawn w wc =>
      let wc' := GoInt.sub wc 1 in
      let started pc :=
        State (status s) (workBuffer s) (freeThreads s) (pixelBuffer s)
          pc (workers s ++ [calculatorWorker cfg w]) (image s)
          (pixelCount s) (drawer_done s)
          (dispatched s ++ [w]) (emitted s) (consumed s) in
      if decide (wc' = 0) then Some (started StarterReturned)
      else if printCalculatingProgress cfg then
        match starter_progress wc' with
        | Some _ => Some (started (RangeRecv wc'))
        | None => Some (panic (started (RangeRecv wc')))
        end
      else Some (started (RangeRecv wc'))
  | StarterReturned => None
  end.

(** The worker list after worker [i] performed one operation and has
    [rest] left: a worker with nothing left has returned. *)
Definition worker_advance (i : nat) (rest : list worker_op)
    (ws : list (option (list worker_op))) : list (option (list worker_op)) :=
  match rest with
  | [] => delete i ws
  | _ => <[i := Some rest]> ws
  end.

(** One step of the [i]-th running [calculatorWorker]. *)
Definition calculatorWorker_step (i : nat) (s : state) : option state :=
  match workers s !! i with
  | None => None
  | Some None => Some (panic s)
  | Some (Some []) => None
  | Some (Some (SendPixel p :: rest)) =>
      if decide (Z.of_nat (length (pixelBuffer s)) < numOfPixels cfg) then
        Some (State (status s) (workBuffer s) (freeThreads s)
                (pixelBuffer s ++ [p]) (starter s)
                (worker_advance i rest (workers s)) (image s)
                (pixelCount s) (drawer_done s)
                (dispatched s) (emitted s ++ [p]) (consumed s))
      else None
  | Some (Some (SendFreeThread :: rest)) =>
      if decide (Z.of_nat (length (freeThreads s)) < numThreads cfg) then
        Some (State (status s) (workBuffer s) (freeThreads s ++ [true])
                (pixelBuffer s) (starter s)
                (worker_advance i rest (workers s)) (image s)
                (pixelCount s) (drawer_done s)
                (dispatched s) (emitted s) (consumed s))
      else None
  end.

(** The progress test [*pixelCount%(numOfPixels/10) == 0]. *)
Definition drawer_progress (count : Z) : option bool :=
  q ← GoInt.div (numOfPixels cfg) 10;
  m ← GoInt.rem count q;
  Some (bool_decide (m = 0)).

(** The body of the receive loop of [drawingWorker] for a received pixel:
    the raster and the counter after it, and how the loop goes on
    ([Some true]: [break]; [Some false]: next iteration; [None]: the
    division panic of the progress test). *)
Definition drawer_body (p : pixel) (img : gmap (Z * Z) RGBA) (count : Z)
    : gmap (Z * Z) RGBA * Z * option bool :=
  let img' := image_set p img in
  let count' := GoInt.add count 1 in
  let break := Some (bool_decide (count' = numOfPixels cfg)) in
  (img', count',
   if printDrawingProgress cfg then
     match drawer_progress count' with
     | Some _ => break
     | None => None
     end
   else break).

(** One iteration of the receive loop as a step of the drawer goroutine. *)
Definition drawingWorker_step (s : state) : option state :=
  if drawer_done s then None
  else
    match pixelBuffer s with
    | [] => None
    | p :: rest =>
        let '(img, count, next) := drawer_body p (image s) (pixelCount s) in
        let received done :=
          State (status s) (workBuffer s) (freeThreads s) rest (starter s)
            (workers s) img count done
            (dispatched s) (emitted s) (consumed s ++ [p]) in
        match next with
        | Some done => Some (received done)
        | None => Some (panic (received false))
        end
    end.

(** [wg.Wait()] returns once the drawer is done; [main] then writes the
    file and returns, which ends the process. *)
Definition main_step (s : state) : option state :=
  if drawer_done s then
    Some (State Exited (workBuffer s) (freeThreads s) (pixelBuffer s)
            (starter s) (workers s) (image s) (pixelCount s) (drawer_done s)
            (dispatched s) (emitted s) (consumed s))
  else None.

Definition step (th : thread) (s : state) : option state :=
  if decide (status s = Running) then
    match th with
    | TStarter => calculatorWorkerStarter_step s
    | TWorker i => calculatorWorker_step i s
    | TDrawer => drawingWorker_step s
    | TMain => main_step s
    end
  else None.

Fixpoint run (sched : list thread) (s : state) : option state :=
  match sched with
  | [] => Some s
  | th :: sched' => s' ← step th s; run sched' s'
  end.

(** [image.NewRGBA] panics when a dimension is negative or the buffer of
    four bytes per pixel does not fit an [int]. *)
Definition image_fits : Prop :=
  0 ≤ width cfg ∧ 0 ≤ height cfg ∧ 4 * width cfg * height cfg ≤ GoInt.max_int.

#[global] Instance image_fits_dec : Decision image_fits.
Proof. unfold image_fits. apply _. Defined.

(** The state in which [main] starts the two goroutines.  [make] panics
    on a negative capacity, and [workCreator] runs to its end before
    anything else starts, so its regions must fit [workBuffer].  The limit
    the runtime puts on the size of an allocation is not modelled: [init]
    is used below only as the start of a run that exists. *)
Definition init : option state :=
  if decide (image_fits
             ∧ 0 ≤ numThreads cfg ∧ 0 ≤ numOfPixels cfg ∧ 0 ≤ numWorkTasks cfg) then
    ws ← workCreator cfg;
    if decide (Z.of_nat (length ws) ≤ numWorkTasks cfg) then
      Some (State Running ws [] [] (Preload 0) [] ∅ 0 false [] [] [])
    else None
  else None.

Definition reachable (s : state) : Prop :=
  ∃ s0 sched, init = Some s0 ∧ run sched s0 = Some s.

(** No goroutine can take a step. *)
Definition quiescent (s : state) : Prop := ∀ th, step th s = None.

(** The goroutines there are in a state: the starter, the drawer, [main]
    and the running workers. *)
Definition goroutines (s : state) : list thread :=
  TStarter :: TDrawer :: TMain :: (TWorker <$> seq 0 (length (workers s))).

Definition all_asleep (s : state) : bool :=
  forallb (λ th, if step th s is Some _ then false else true) (goroutines s).

(** The end of the process in a state, [None] while a goroutine can still
    move.  A state in which the program itself is still [Running] and no
    goroutine can move is the one the runtime ends with its deadlock
    error. *)
Definition process_end_of (s : state) : option process_end :=
  if all_asleep s then
    Some match status s with
         | Exited => MainReturned
         | Panicked => PanicAbort
         | Running => DeadlockAbort
         end
  else None.

(** ** The receive loop of [drawingWorker] on its own *)

Inductive drawer_result :=
| DrawerDone (img : gmap (Z * Z) RGBA) (count : Z)       (** [break], [wg.Done()] *)
| DrawerWaiting (img : gmap (Z * Z) RGBA) (count : Z)    (** blocked on the channel *)
| DrawerPanic (img : gmap (Z * Z) RGBA) (count : Z).

(** [drawingWorker] fed the pixels [ps] and nothing more, entered with the
    given raster and counter. *)
Fixpoint drawingWorker (ps : list pixel) (img : gmap (Z * Z) RGBA) (count : Z)
    : drawer_result :=
  match ps with
  | [] => DrawerWaiting img count
  | p :: rest =>
      let '(img', count', next) := drawer_body p img count in
      match next with
      | Some true => DrawerDone img' count'
      | Some false => drawingWorker rest img' count'
      | None => DrawerPanic img' count'
      end
  end.

(** ** The end of [main] *)

(** [fmt.Sprintf("mandelbrot_%d_%d_%d.png", width, height, MAX_ITER)] *)
Definition imageName : string :=
  "mandelbrot_" +:+ pretty (width cfg) +:+ "_" +:+ pretty (height cfg)
    +:+ "_" +:+ pretty (MAX_ITER cfg) +:+ ".png".

(** What [os.Create] returned. *)
Inductive create_result := Created | CreateFailed (err : string).

Inductive output :=
| Println (line : string)
| PngEncode (file : string) (img : gmap (Z * Z) RGBA).

(** The statements of [main] after [wg.Wait()]: the outputs in order, and
    the raster [main] holds when it returns. *)
Definition write_image (create : string → create_result)
    (img : gmap (Z * Z) RGBA) (count : Z) : list output * gmap (Z * Z) RGBA :=
  let rendered := Println ("Pixels rendered: " +:+ pretty count) in
  match create imageName with
  | CreateFailed err => ([rendered; Println ("err: " +:+ err)], img)
  | Created =>
      ([rendered; PngEncode imageName img;
        Println ("Image created: " +:+ imageName)], img)
  end.

(** ** What the pipeline still owes *)

Definition op_pixel (op : worker_op) : option pixel :=
  match op with SendPixel p => Some p | SendFreeThread => None end.

(** The pixels a running worker has yet to send. *)
Definition worker_pending (w : option (list worker_op)) : list pixel :=
  match w with
  | Some todo => omap op_pixel todo
  | None => []
  end.

Definition pending (ws : list (option (list worker_op))) : list pixel :=
  ws ≫= worker_pending.

(** The region the starter has received and not yet handed to a worker. *)
Definition in_hand (pc : starter_pc) : list workRange :=
  match pc with
  | TakeToken w _ | Spawn w _ => [w]
  | _ => []
  end.

(** The token the starter has taken and not yet given to a worker. *)
Definition token_in_hand (pc : starter_pc) : Z :=
  match pc with Spawn _ _ => 1 | _ => 0 end.

Definition region_pixels (w : workRange) : list pixel :=
  default [] (worker_pixels cfg w).

(** A running worker sends pixels and then, last, its token. *)
Definition worker_wf (w : option (list worker_op)) : Prop :=
  ∃ ps, w = Some ((SendPixel <$> ps) ++ [SendFreeThread]).

(** The two forms a worker started from [calculatorWorker] can have. *)
Definition worker_shape (w : option (list worker_op)) : Prop :=
  w = None ∨ worker_wf w.

(** The token protocol and the order of dispatch; holds in every run. *)
Record protocol_inv (regions : list workRange) (s : state) : Prop := {
  inv_work : dispatched s ++ in_hand (starter s) ++ workBuffer s = regions;
  inv_threads : 0 ≤ numThreads cfg;
  inv_shape : Forall worker_shape (workers s);
  inv_tokens :
    match starter s with
    | Preload t =>
        0 ≤ t ≤ numThreads cfg ∧ Z.of_nat (length (freeThreads s)) = t
        ∧ workers s = [] ∧ dispatched s = []
    | pc =>
        Z.of_nat (length (freeThreads s)) + Z.of_nat (length (workers s))
          + token_in_hand pc = numThreads cfg
    end
}.

(** What a valid configuration adds: the counters and the pixels. *)
Record pipeline_inv (regions : list workRange) (s : state) : Prop := {
  inv_protocol : protocol_inv regions s;
  inv_workers : Forall worker_wf (workers s);
  inv_counter :
    match starter s with
    | Preload _ => True
    | RangeRecv wc | TakeToken _ wc | Spawn _ wc =>
        wc = numWorkTasks cfg - Z.of_nat (length (dispatched s)) ∧ 1 ≤ wc
    | StarterReturned => Z.of_nat (length (dispatched s)) = numWorkTasks cfg
    end;
  inv_channel : emitted s = consumed s ++ pixelBuffer s;
  inv_count :
    pixelCount s = Z.of_nat (length (consumed s))
    ∧ pixelCount s ≤ numOfPixels cfg;
  inv_done : drawer_done s = true → pixelCount s = numOfPixels cfg;
  inv_not_done :
    status s ≠ Panicked → drawer_done s = false → pixelCount s < numOfPixels cfg;
  inv_image : image s = foldl (λ img p, image_set p img) ∅ (consumed s);
  inv_exit : status s = Exited → drawer_done s = true;
  inv_no_panic : no_progress_panic cfg → status s ≠ Panicked;
  inv_pixels :
    emitted s ++ pending (workers s)
      ++ ((in_hand (starter s) ++ workBuffer s) ≫= region_pixels)
    ≡ₚ regions ≫= region_pixels
}.

(** ** A bound on the steps a state has left *)

Definition op_cost (op : worker_op) : nat :=
  match op with SendPixel _ => 2%nat | SendFreeThread => 1%nat end.

(** Each pixel is sent once and received once, each token sent once; a
    worker about to panic has one step. *)
Definition worker_cost (w : option (list worker_op)) : nat :=
  match w with
  | Some todo => sum_list (op_cost <$> todo)
  | None => 1%nat
  end.

(** Receiving a region, taking a token and starting the worker, and then
    what the worker does. *)
Definition region_cost (w : workRange) : nat :=
  (3 + worker_cost (calculatorWorker cfg w))%nat.

Definition starter_cost (pc : starter_pc) : nat :=
  match pc with
  | Preload t => S (Z.to_nat (numThreads cfg - t))
  | RangeRecv _ => 0%nat
  | TakeToken w _ => (2 + worker_cost (calculatorWorker cfg w))%nat
  | Spawn w _ => (1 + worker_cost (calculatorWorker cfg w))%nat
  | StarterReturned => 0%nat
  end.

Definition steps_left (s : state) : nat :=
  match status s with
  | Running =>
      (1 + starter_cost (starter s)
       + sum_list (region_cost <$> workBuffer s)
       + sum_list (worker_cost <$> workers s)
       + length (pixelBuffer s))%nat
  | _ => 0%nat
  end.

End System.

(** ** The sequential variant

    The second program of the source renders the same image without
    goroutines.  Its [mandelbrotCalc] is the one above with the literal [2]
    for [bound]; its [width], [height] and [MAX_ITER] are read from the
    configuration here (the source fixes them to 1200, 800 and 100). *)

Section Sequential.
Context `{ops : Complex64Ops}.
Variable cfg : config.

(** The two nested loops of the sequential [main] over the coordinates
    still to visit: compute the colour, then [img.Set(x, y, col)].  [None]
    is the division panic of the colour computation. *)
Fixpoint sequential_loop (todo : list (Z * Z)) (img : gmap (Z * Z) RGBA)
    : option (gmap (Z * Z) RGBA) :=
  match todo with
  | [] => Some img
  | q :: todo' =>
      p ← compute_pixel cfg q;
      sequential_loop todo' (image_set cfg p img)
  end.

(** The raster the sequential [main] holds after its loops. *)
Definition sequential_raster : option (gmap (Z * Z) RGBA) :=
  sequential_loop (visit_order (WorkRange 0 (width cfg) 0 (height cfg))) ∅.

End Sequential.

(** The parameters of the sequential program; the counts it does not have
    are set to one. *)
Definition sequential_config : config := Config 100 1200 800 1 1 false false.

(** ** An instance for running the model

    Exact rational arithmetic in place of the rounded floating-point
    operations, with the plane bounds of the source ([RE_START = -2],
    [RE_END = 1], [IM_START = -1], [IM_END = 1], [bound = 2]). *)
Module Exact.

Definition point : Type := Qc * Qc.

Definition sq_add (z c : point) : point :=
  (z.1 * z.1 - z.2 * z.2 + c.1, Qc_of_Z 2 * z.1 * z.2 + c.2)%Qc.

Definition within (z : point) : bool :=
  bool_decide (Qc_of_Z (-2) ≤ z.1)%Qc && bool_decide (z.1 ≤ Qc_of_Z 2)%Qc.

Definition plane (cfg : config) (x y : Z) : point :=
  (Qc_of_Z (-2) + Qc_of_Z x / Qc_of_Z (width cfg) * Qc_of_Z 3,
   Qc_of_Z (-1) + Qc_of_Z y / Qc_of_Z (height cfg) * Qc_of_Z 2)%Qc.

#[export] Instance ops : Complex64Ops :=
  {| complex64 := point;
     c_zero := (Qc_of_Z 0, Qc_of_Z 0);
     c_sq_add := sq_add;
     re_within_bound := within;
     plane_point := plane |}.

End Exact.

(** ** Configurations used as examples *)

(** A 4 x 4 image, four tasks, two workers, ten iterations. *)
Definition scenario_4x4 : config := Config 10 4 4 4 2 true true.

(** A 2 x 2 image, one task, one worker, ten iterations, progress printed
    as in the source. *)
Definition scenario_2x2 : config := Config 10 2 2 1 1 true true.

(** The parameters of the source. *)
Definition source_config : config := Config 255 6000 4000 64 12 true true.


(** A 5 x 5 image cut for four tasks: two cells of two pixels per axis,
    the last column and row left over. *)
Definition uneven_5x5 : config := Config 10 5 5 4 2 true true.

(** A 2 x 2 image cut for four tasks of one pixel each, one worker,
    progress printed as in the source. *)
Definition four_tasks_2x2 : config := Config 10 2 2 4 1 true true.

(** The 4 x 4 scenario with a zero iteration bound. *)
Definition zero_bound_4x4 : config := Config 0 4 4 4 2 true true.

(** A run of the 4 x 4 scenario to its end, with exact arithmetic. *)
Definition schedule_4x4 : list thread :=
  replicate 3 TStarter                (* two tokens, then on to the loop *)
  ++ replicate 6 TStarter             (* regions 1 and 2 started *)
  ++ [TStarter]                       (* region 3 received, no token left *)
  ++ replicate 5 (TWorker 0)          (* the first worker sends and returns *)
  ++ replicate 3 TStarter             (* region 3 started, region 4 received *)
  ++ replicate 5 (TWorker 0)
  ++ replicate 2 TStarter             (* region 4 started, the starter returns *)
  ++ replicate 10 (TWorker 0)
  ++ replicate 16 TDrawer
  ++ [TMain].

Definition run_4x4 (sched : list thread) : option state :=
  s0 ← init scenario_4x4; run (ops := Exact.ops) scenario_4x4 sched s0.

(** The same steps without the last, on the 5 x 5 image: all that can
    happen there. *)
Definition schedule_5x5 : list thread := take 51 schedule_4x4.

(** The 2 x 2 scenario up to the first pixel the drawer receives. *)
Definition schedule_2x2 : list thread :=
  replicate 5 TStarter ++ [TWorker 0; TDrawer].

(** * Properties *)

(** ** Machine arithmetic *)

(** Closes a goal that a value fits an [int], from the bounds at hand. *)
Ltac int_range :=
  unfold GoInt.in_range, GoInt.min_int, GoInt.max_int in *; first [lia | nia].

Lemma wrap_in_range z : GoInt.in_range z → GoInt.wrap z = z.
Proof.
  unfold GoInt.in_range, GoInt.min_int, GoInt.max_int, GoInt.wrap. intros Hz.
  rewrite Z.mod_small; lia.
Qed.

Lemma go_div_nonneg a b :
  0 ≤ a ≤ GoInt.max_int → 0 < b → GoInt.div a b = Some (a `div` b).
Proof.
  intros Ha Hb. unfold GoInt.div. rewrite decide_False by lia.
  rewrite Z.quot_div_nonneg by lia. f_equal. apply wrap_in_range.
  unfold GoInt.in_range, GoInt.min_int, GoInt.max_int in *.
  assert (0 ≤ a `div` b) by (apply Z.div_pos; lia).
  assert (a `div` b ≤ a) by (apply Z.div_le_upper_bound; nia).
  lia.
Qed.

Lemma go_rem_nonneg a b :
  0 ≤ a → 0 < b → GoInt.rem a b = Some (a `mod` b).
Proof.
  intros Ha Hb. unfold GoInt.rem. rewrite decide_False by lia.
  by rewrite Z.rem_mod_nonneg by lia.
Qed.

(** ** The partitioner *)

Example workCreator_4x4_4 :
  workCreator (Config 255 4 4 4 2 true true)
  = Some [WorkRange 0 2 0 2; WorkRange 0 2 2 4; WorkRange 2 4 0 2; WorkRange 2 4 2 4].
Proof. reflexivity. Qed.

Example workCreator_no_tasks : workCreator (Config 255 4 4 0 2 true true) = None.
Proof. reflexivity. Qed.

Lemma sqrt_tasks cfg :
  valid_config cfg →
  let r := GoInt.sqrt (numWorkTasks cfg) in
  1 ≤ r ∧ r * r ≤ numWorkTasks cfg < (r + 1) * (r + 1).
Proof.
  intros [_ _ _ Hn _ _ _]. simpl. unfold GoInt.sqrt.
  pose proof (Z.sqrt_spec (numWorkTasks cfg) ltac:(lia)) as Hs.
  unfold Z.succ in Hs. split; [|nia].
  destruct (decide (1 ≤ Z.sqrt (numWorkTasks cfg))); [done|].
  pose proof (Z.sqrt_nonneg (numWorkTasks cfg)).
  assert (Z.sqrt (numWorkTasks cfg) = 0) as Hz by lia.
  rewrite Hz in Hs. lia.
Qed.

Lemma for_range_elem lo hi k : k ∈ for_range lo hi ↔ lo ≤ k < hi.
Proof. unfold for_range. rewrite elem_of_seqZ. lia. Qed.

Lemma work_item_grid_cell ww wh r i j :
  0 ≤ ww → 0 ≤ wh → r * ww ≤ GoInt.max_int → r * wh ≤ GoInt.max_int →
  r ≤ GoInt.max_int →
  0 ≤ i < r → 0 ≤ j < r →
  work_item ww wh i j = grid_cell ww wh i j.
Proof.
  intros Hww Hwh Hrw Hrh Hr Hi Hj. unfold work_item, grid_cell, GoInt.mul, GoInt.add.
  assert (∀ k w, 0 ≤ w → r * w ≤ GoInt.max_int → 0 ≤ k ≤ r →
            GoInt.wrap (k * w) = k * w) as Hmul.
  { intros k w ? ? ?. apply wrap_in_range. int_range. }
  assert (∀ k, 0 ≤ k < r → GoInt.wrap (k + 1) = k + 1) as Hadd.
  { intros k ?. apply wrap_in_range. int_range. }
  rewrite !Hadd by done. rewrite !Hmul by (done || lia). done.
Qed.

Lemma workCreator_grid cfg :
  valid_config cfg →
  let r := GoInt.sqrt (numWorkTasks cfg) in
  workCreator cfg = Some (grid r (width cfg `div` r) (height cfg `div` r)).
Proof.
  intros Hv. pose proof (sqrt_tasks cfg Hv) as [Hr1 [Hr2 _]].
  destruct Hv as [Hw Hh Hp Hn _ _ _]. simpl in *.
  set (r := GoInt.sqrt (numWorkTasks cfg)) in *.
  assert (width cfg ≤ GoInt.max_int ∧ height cfg ≤ GoInt.max_int) as [Hwm Hhm].
  { unfold GoInt.max_int in *. nia. }
  unfold workCreator. fold r.
  rewrite (go_div_nonneg (width cfg) r) by lia.
  rewrite (go_div_nonneg (height cfg) r) by lia. simpl. f_equal.
  assert (0 ≤ width cfg `div` r) by (apply Z.div_pos; lia).
  assert (0 ≤ height cfg `div` r) by (apply Z.div_pos; lia).
  assert (r * (width cfg `div` r) ≤ width cfg) by (apply Z.mul_div_le; lia).
  assert (r * (height cfg `div` r) ≤ height cfg) by (apply Z.mul_div_le; lia).
  assert (r ≤ GoInt.max_int) by (unfold GoInt.max_int; nia).
  unfold grid. apply Forall_bind_ext, Forall_forall. intros i Hi.
  apply Forall_bind_ext, Forall_forall. intros j Hj.
  apply for_range_elem in Hi, Hj.
  rewrite (work_item_grid_cell _ _ r) by (done || lia). done.
Qed.

Lemma grid_length r ww wh : 0 ≤ r → length (grid r ww wh) = Z.to_nat (r * r).
Proof.
  intros Hr. unfold grid.
  assert (∀ (l1 l2 : list Z),
    length (i ← l1; j ← l2; [grid_cell ww wh i j]) = (length l1 * length l2)%nat) as Hlen.
  { intros l1 l2. induction l1 as [|i l1 IH]; [done|].
    rewrite bind_cons, length_app, IH. simpl. f_equal.
    clear IH. induction l2 as [|j l2 IH2]; [done|]. rewrite bind_cons. simpl. by rewrite IH2. }
  rewrite Hlen. unfold for_range. rewrite length_seqZ. lia.
Qed.

Lemma grid_elem r ww wh w :
  w ∈ grid r ww wh ↔ ∃ i j, 0 ≤ i < r ∧ 0 ≤ j < r ∧ w = grid_cell ww wh i j.
Proof.
  unfold grid. rewrite list_elem_of_bind. split.
  - intros (i & Hw & Hi). apply list_elem_of_bind in Hw as (j & Hw & Hj).
    apply list_elem_of_singleton in Hw. apply for_range_elem in Hi, Hj.
    exists i, j. split_and!; [lia..|done].
  - intros (i & j & Hi & Hj & ->). exists i. split; [|apply for_range_elem; lia].
    apply list_elem_of_bind. exists j. split; [apply list_elem_of_singleton; done|].
    apply for_range_elem; lia.
Qed.

(** The cells of one axis that hold coordinate [x]: the one at [x / w]. *)
Lemma count_axis (w x : Z) (n : nat) :
  0 ≤ w →
  length (filter (λ i, i * w ≤ x < (i + 1) * w) (seqZ 0 (Z.of_nat n)))
  = if decide (0 ≤ x < Z.of_nat n * w) then 1%nat else 0%nat.
Proof.
  intros Hw. induction n as [|n IH].
  - simpl. rewrite decide_False by lia. done.
  - rewrite seqZ_S, filter_app, length_app, IH. rewrite filter_singleton by exact [].
    repeat case_decide; simpl; try done; nia.
Qed.

Lemma count_grid r ww wh (p : Z * Z) :
  0 ≤ r → 0 ≤ ww → 0 ≤ wh →
  length (filter (λ w, contains w p) (grid r ww wh))
  = if decide ((0 ≤ p.1 < r * ww) ∧ (0 ≤ p.2 < r * wh)) then 1%nat else 0%nat.
Proof.
  intros Hr Hww Hwh. unfold grid, for_range. rewrite Z.sub_0_r.
  assert (∀ (l1 l2 : list Z),
    length (filter (λ w, contains w p) (i ← l1; j ← l2; [grid_cell ww wh i j]))
    = (length (filter (λ i, (i * ww ≤ p.1 < (i + 1) * ww)%Z) l1)
       * length (filter (λ j, (j * wh ≤ p.2 < (j + 1) * wh)%Z) l2))%nat) as Hcount.
  { intros l1 l2. induction l1 as [|i l1 IH]; [done|].
    rewrite bind_cons, filter_app, length_app, IH, filter_cons.
    assert (length (filter (λ w, contains w p) (j ← l2; [grid_cell ww wh i j]))
            = if decide (i * ww ≤ p.1 < (i + 1) * ww)
              then length (filter (λ j, j * wh ≤ p.2 < (j + 1) * wh) l2) else 0%nat) as ->.
    { clear IH. induction l2 as [|j l2 IH2]; [by case_decide|].
      rewrite bind_cons, filter_app, length_app, IH2, !filter_cons, filter_nil.
      unfold contains, grid_cell. simpl.
      repeat case_decide; simpl; try done; lia. }
    case_decide; simpl; lia. }
  rewrite Hcount. rewrite <- (Z2Nat.id r) by done.
  rewrite !count_axis by done.
  repeat case_decide; simpl; try done; lia.
Qed.


Lemma grid_NoDup r ww wh : 0 < ww → 0 < wh → NoDup (grid r ww wh).
Proof.
  intros Hww Hwh. unfold grid. apply NoDup_bind.
  - intros i1 i2 w _ _ H1 H2.
    apply list_elem_of_bind in H1 as (j1 & H1 & _), H2 as (j2 & H2 & _).
    apply list_elem_of_singleton in H1, H2. subst w.
    apply (f_equal minX) in H2. simpl in H2. nia.
  - intros i _. apply NoDup_bind.
    + intros j1 j2 w _ _ H1 H2. apply list_elem_of_singleton in H1, H2. subst w.
      apply (f_equal minY) in H2. simpl in H2. nia.
    + intros j _. apply NoDup_singleton.
    + apply NoDup_seqZ.
  - apply NoDup_seqZ.
Qed.

(** Regions that are counted once for a pixel do not overlap at it. *)
Lemma count_one_unique (ws : list workRange) (p : Z * Z) w1 w2 :
  NoDup ws →
  length (filter (λ w, contains w p) ws) = 1%nat →
  w1 ∈ ws → w2 ∈ ws → contains w1 p → contains w2 p → w1 = w2.
Proof.
  intros Hnd Hlen H1 H2 Hc1 Hc2.
  assert (w1 ∈ filter (λ w, contains w p) ws) as Hf1 by (by apply list_elem_of_filter).
  assert (w2 ∈ filter (λ w, contains w p) ws) as Hf2 by (by apply list_elem_of_filter).
  destruct (filter (λ w, contains w p) ws) as [|a [|b l]]; simplify_eq/=.
  apply list_elem_of_singleton in Hf1, Hf2. congruence.
Qed.

(** With cells that divide the image evenly, every image pixel lies in one
    region and no other pixel lies in any. *)
Lemma grid_tiling cfg :
  valid_config cfg →
  let r := GoInt.sqrt (numWorkTasks cfg) in
  let ws := grid r (width cfg `div` r) (height cfg `div` r) in
  r * (width cfg `div` r) = width cfg → r * (height cfg `div` r) = height cfg →
  NoDup ws
  ∧ (∀ p, length (filter (λ w, contains w p) ws)
          = if decide (in_image cfg p) then 1%nat else 0%nat)
  ∧ (∀ w1 w2 p, w1 ∈ ws → w2 ∈ ws → contains w1 p → contains w2 p → w1 = w2).
Proof.
  intros Hv r ws Ha Hb. pose proof (sqrt_tasks cfg Hv) as [Hr1 _]. fold r in Hr1.
  destruct Hv as [Hw Hh _ _ _ _ _]. subst ws.
  set (a := width cfg `div` r) in *. set (b := height cfg `div` r) in *.
  assert (0 < a ∧ 0 < b) as [Hapos Hbpos] by nia.
  assert (∀ p, length (filter (λ w, contains w p) (grid r a b))
               = if decide (in_image cfg p) then 1%nat else 0%nat) as Hcount.
  { intros p. rewrite count_grid by lia.
    repeat case_decide; unfold in_image in *; try done; lia. }
  split; [by apply grid_NoDup|]. split; [done|].
  intros w1 w2 p H1 H2 Hc1 Hc2.
  apply (count_one_unique (grid r a b) p); try done; [by apply grid_NoDup|].
  rewrite Hcount. rewrite decide_True; [done|].
  apply grid_elem in H1 as (i & j & Hi & Hj & ->).
  unfold contains, grid_cell in Hc1. simpl in Hc1. unfold in_image. nia.
Qed.

(** C1: [workCreator] produces [r * r] regions of [width/r] by [height/r]
    pixels, [r] the integer square root of the task count; when [r] divides
    the width and the height, every pixel of the image lies in exactly one
    region, no other pixel lies in any, and no two regions share a pixel. *)
Theorem workCreator_tiles cfg :
  valid_config cfg →
  let r := GoInt.sqrt (numWorkTasks cfg) in
  ∃ ws, workCreator cfg = Some ws
    ∧ (r * r ≤ numWorkTasks cfg < (r + 1) * (r + 1))
    ∧ length ws = Z.to_nat (r * r)
    ∧ (∀ w, w ∈ ws →
         maxX w - minX w = width cfg `div` r ∧ maxY w - minY w = height cfg `div` r)
    ∧ ((r | width cfg) → (r | height cfg) →
         NoDup ws
         ∧ (∀ p, length (filter (λ w, contains w p) ws)
                 = if decide (in_image cfg p) then 1%nat else 0%nat)
         ∧ (∀ w1 w2 p, w1 ∈ ws → w2 ∈ ws → contains w1 p → contains w2 p → w1 = w2)).
Proof.
  intros Hv r. pose proof (sqrt_tasks cfg Hv) as [Hr1 Hr2]. fold r in Hr1, Hr2.
  exists (grid r (width cfg `div` r) (height cfg `div` r)).
  split; [by apply workCreator_grid|]. split; [done|].
  split; [apply grid_length; lia|].
  split.
  - intros w (i & j & _ & _ & ->)%grid_elem. unfold grid_cell. simpl. lia.
  - intros [a Ha] [b Hb]. apply (grid_tiling cfg Hv).
    + fold r. rewrite Ha, Z.div_mul by lia. lia.
    + fold r. rewrite Hb, Z.div_mul by lia. lia.
Qed.

Lemma scenario_4x4_valid : valid_config scenario_4x4.
Proof. split; unfold GoInt.max_int; simpl; lia. Qed.




(** ** The pixel computer and the worker *)

Section Worker.
Context `{ops : Complex64Ops}.
Variable cfg : config.

Lemma mandelbrot_loop_spec c z n :
  n ≤ MAX_ITER cfg →
  let m := mandelbrot_loop cfg c z n in
  n ≤ m ≤ MAX_ITER cfg
  ∧ (∀ k : nat, Z.of_nat k < m - n →
       re_within_bound (Nat.iter k (λ z, c_sq_add z c) z) = true)
  ∧ (m < MAX_ITER cfg →
       re_within_bound (Nat.iter (Z.to_nat (m - n)) (λ z, c_sq_add z c) z) = false).
Proof.
  funelim (mandelbrot_loop cfg c z n); intros Hn; simpl.
  - destruct a as [Hz Hlt].
    match goal with IH : _ → _ ∧ _ |- _ => destruct IH as (Hb & Hin & Hout); [lia|] end.
    set (m := mandelbrot_loop cfg c (c_sq_add z c) (n + 1)) in *.
    split; [lia|]. split.
    + intros [|k] Hk; [done|]. rewrite Nat.iter_succ_r. apply Hin. lia.
    + intros Hm. replace (Z.to_nat (m - n)) with (S (Z.to_nat (m - (n + 1)))) by lia.
      rewrite Nat.iter_succ_r. by apply Hout.
  - split; [lia|]. split; [intros k Hk; lia|].
    intros Hlt. rewrite Z.sub_diag. simpl.
    destruct (re_within_bound z) eqn:Hz; [|done].
    match goal with Hnot : ¬ _ |- _ => by destruct Hnot end.
Qed.

Lemma mandelbrotCalc_spec (c : complex64) :
  0 ≤ MAX_ITER cfg →
  let n := mandelbrotCalc cfg c in
  0 ≤ n ≤ MAX_ITER cfg
  ∧ (∀ k : nat, Z.of_nat k < n → re_within_bound (orbit c k) = true)
  ∧ (n < MAX_ITER cfg → re_within_bound (orbit c (Z.to_nat n)) = false).
Proof.
  intros Hmax. pose proof (mandelbrot_loop_spec c c_zero 0 Hmax) as Hspec.
  simpl in Hspec. unfold mandelbrotCalc, orbit.
  by rewrite Z.sub_0_r in Hspec.
Qed.

Lemma pixel_color_shade n :
  valid_config cfg → 0 ≤ n ≤ MAX_ITER cfg →
  pixel_color cfg n = Some (MkRGBA (shade cfg n) (shade cfg n) (shade cfg n) 254)
  ∧ 0 ≤ shade cfg n ≤ 255.
Proof.
  intros [_ _ _ _ _ Hi Hs] Hn. unfold pixel_color, shade, GoInt.mul.
  assert (0 ≤ n * 255 ≤ GoInt.max_int) as Hr by nia.
  rewrite wrap_in_range by int_range.
  rewrite go_div_nonneg by lia. simpl.
  assert (0 ≤ (n * 255) `div` MAX_ITER cfg ≤ 255) as Hq.
  { split; [apply Z.div_pos; lia|]. apply Z.div_le_upper_bound; nia. }
  unfold GoInt.sub.
  rewrite wrap_in_range by int_range.
  unfold GoInt.uint8. rewrite Z.mod_small by lia. split; [done|lia].
Qed.

Lemma compute_pixel_pixel_at q :
  valid_config cfg → compute_pixel cfg q = Some (pixel_at cfg q).
Proof.
  intros Hv. unfold compute_pixel, pixel_at.
  pose proof (mandelbrotCalc_spec (plane_point cfg q.1 q.2)) as (Hn & _).
  { destruct Hv; lia. }
  destruct (pixel_color_shade _ Hv Hn) as [-> _]. done.
Qed.

Lemma mapM_total {X Y} (f : X → option Y) (g : X → Y) (l : list X) :
  (∀ x, f x = Some (g x)) → mapM f l = Some (g <$> l).
Proof.
  intros Hfg. apply mapM_Some. induction l; constructor; auto.
Qed.

Lemma worker_pixels_valid work :
  valid_config cfg → worker_pixels cfg work = Some (pixel_at cfg <$> visit_order work).
Proof.
  intros Hv. unfold worker_pixels. apply mapM_total. intros q.
  by apply compute_pixel_pixel_at.
Qed.

Lemma calculatorWorker_valid work :
  valid_config cfg →
  calculatorWorker cfg work
  = Some ((SendPixel <$> (pixel_at cfg <$> visit_order work)) ++ [SendFreeThread]).
Proof. intros Hv. unfold calculatorWorker. by rewrite worker_pixels_valid. Qed.

(** C8: [mandelbrotCalc] is a total function; for a non-negative bound its
    result [n] lies between 0 and [MAX_ITER], the sequence stayed within the
    bound for the first [n] iterations, and it left the bound at iteration
    [n] unless [n] is [MAX_ITER]. *)
Theorem mandelbrotCalc_total (c : complex64) :
  0 ≤ MAX_ITER cfg →
  let n := mandelbrotCalc cfg c in
  0 ≤ n ≤ MAX_ITER cfg
  ∧ (∀ k : nat, Z.of_nat k < n → re_within_bound (orbit c k) = true)
  ∧ (n < MAX_ITER cfg → re_within_bound (orbit c (Z.to_nat n)) = false).
Proof. apply mandelbrotCalc_spec. Qed.

Lemma visit_order_elem work q : q ∈ visit_order work ↔ contains work q.
Proof.
  unfold visit_order, contains. rewrite list_elem_of_bind. split.
  - intros (x & Hq & Hx). apply list_elem_of_bind in Hq as (y & Hq & Hy).
    apply list_elem_of_singleton in Hq as ->. simpl.
    apply for_range_elem in Hx, Hy. lia.
  - intros [Hx Hy]. exists q.1. split; [|by apply for_range_elem].
    apply list_elem_of_bind. exists q.2. split; [|by apply for_range_elem].
    apply list_elem_of_singleton. by destruct q.
Qed.

(** C10: for a valid configuration a worker does send, for every
    coordinate of its region, the pixel whose red, green and blue are
    [255 - n*255/MAX_ITER], [n] the iteration count of that point, with
    alpha 254; and every pixel it sends is the one of a coordinate of its
    region, grey with that intensity and alpha 254, so never opaque. *)
Theorem worker_colors work :
  valid_config cfg →
  ∃ todo, calculatorWorker cfg work = Some todo
    ∧ (∀ x y, contains work (x, y) →
         let n := mandelbrotCalc cfg (plane_point cfg x y) in
         let v := 255 - (n * 255) `div` MAX_ITER cfg in
         0 ≤ n ≤ MAX_ITER cfg ∧ 0 ≤ v ≤ 255
         ∧ SendPixel (Pixel x y (MkRGBA v v v 254)) ∈ todo)
    ∧ (∀ p, SendPixel p ∈ todo →
         let n := mandelbrotCalc cfg (plane_point cfg (px p) (py p)) in
         let v := 255 - (n * 255) `div` MAX_ITER cfg in
         contains work (px p, py p)
         ∧ col p = MkRGBA v v v 254 ∧ A (col p) ≠ 255).
Proof.
  intros Hv. eexists. split; [by apply calculatorWorker_valid|].
  assert (∀ c, 0 ≤ mandelbrotCalc cfg c ≤ MAX_ITER cfg) as Hcount.
  { intros c. apply mandelbrotCalc_spec. destruct Hv; lia. }
  split.
  - intros x y Hin. simpl. split; [apply Hcount|].
    split; [apply (pixel_color_shade _ Hv (Hcount _))|].
    apply elem_of_app. left.
    apply list_elem_of_fmap. eexists. split; [reflexivity|].
    apply list_elem_of_fmap. exists (x, y). split; [done|].
    by apply visit_order_elem.
  - intros p Hp.
    apply elem_of_app in Hp as [Hp|Hp]; [|by apply list_elem_of_singleton in Hp].
    apply list_elem_of_fmap in Hp as (p' & [= <-] & Hp).
    apply list_elem_of_fmap in Hp as (q & -> & Hq). simpl.
    split; [|done]. apply visit_order_elem in Hq. by destruct q.
Qed.

Lemma nested_loop_length {X Y W} (f : X → Y → W) (xs : list X) (ys : list Y) :
  length (x ← xs; y ← ys; [f x y]) = (length xs * length ys)%nat.
Proof.
  induction xs as [|x xs IH]; [done|].
  rewrite bind_cons, length_app, IH. simpl. f_equal.
  clear IH. induction ys as [|y ys IH]; [done|].
  rewrite bind_cons. simpl. by rewrite IH.
Qed.

Lemma visit_order_length work :
  length (visit_order work)
  = (Z.to_nat (maxX work - minX work) * Z.to_nat (maxY work - minY work))%nat.
Proof.
  unfold visit_order, for_range. by rewrite nested_loop_length, !length_seqZ.
Qed.

Lemma seqZ_sorted m n : StronglySorted Z.lt (seqZ m n).
Proof.
  remember (Z.to_nat n) as k eqn:Hk. revert m n Hk.
  induction k as [|k IH]; intros m n Hk.
  - rewrite seqZ_nil by lia. constructor.
  - rewrite seqZ_cons by lia. constructor; [apply IH; lia|].
    apply Forall_forall. intros x Hx. apply elem_of_seqZ in Hx. lia.
Qed.

Lemma visit_order_sorted work : StronglySorted x_major_lt (visit_order work).
Proof.
  unfold visit_order, for_range.
  pose proof (seqZ_sorted (minY work) (maxY work - minY work)) as Hys.
  pose proof (seqZ_sorted (minX work) (maxX work - minX work)) as Hxs.
  revert Hys Hxs.
  generalize (seqZ (minY work) (maxY work - minY work)) as ys.
  generalize (seqZ (minX work) (maxX work - minX work)) as xs.
  intros xs ys Hys Hxs. induction Hxs as [|x xs Hxs IH Hlt]; [constructor|].
  rewrite bind_cons. apply StronglySorted_app_2; [| |done].
  - intros q1 q2 H1 H2.
    apply list_elem_of_bind in H1 as (y1 & ->%list_elem_of_singleton & _).
    apply list_elem_of_bind in H2 as (x2 & H2 & Hx2).
    apply list_elem_of_bind in H2 as (y2 & ->%list_elem_of_singleton & _).
    left. simpl. rewrite Forall_forall in Hlt. by apply Hlt.
  - clear IH. induction Hys as [|y ys Hys IH Hlty]; [constructor|].
    rewrite bind_cons. simpl. constructor; [done|].
    apply Forall_forall. intros q Hq.
    apply list_elem_of_bind in Hq as (y2 & ->%list_elem_of_singleton & Hy2).
    right. simpl. rewrite Forall_forall in Hlty. split; [done|by apply Hlty].
Qed.

(** C6, as the code has it: a worker sends one pixel for each coordinate
    of its region, column by column ([x] outer, [y] inner), and sends its
    token last. *)
Theorem worker_visits_x_major work :
  valid_config cfg →
  ∃ ps, calculatorWorker cfg work = Some ((SendPixel <$> ps) ++ [SendFreeThread])
    ∧ coord <$> ps = visit_order work
    ∧ StronglySorted x_major_lt (visit_order work)
    ∧ (∀ q, q ∈ visit_order work ↔ contains work q)
    ∧ length ps
      = (Z.to_nat (maxX work - minX work) * Z.to_nat (maxY work - minY work))%nat.
Proof.
  intros Hv. exists (pixel_at cfg <$> visit_order work).
  split; [by apply calculatorWorker_valid|].
  split.
  { rewrite <- list_fmap_compose. rewrite <- (list_fmap_id (visit_order work)) at 2.
    apply list_fmap_ext. by intros _ [x y] _. }
  split; [apply visit_order_sorted|]. split; [apply visit_order_elem|].
  by rewrite length_fmap, visit_order_length.
Qed.

End Worker.


(** C6, as stated: the second pixel sent is [(0, 1)], not [(1, 0)]. *)
Lemma worker_not_row_major :
  valid_config scenario_4x4
  ∧ ∃ todo, calculatorWorker (ops := Exact.ops) scenario_4x4 (WorkRange 0 2 0 2) = Some todo
      ∧ coord <$> omap op_pixel todo = [(0, 0); (0, 1); (1, 0); (1, 1)]
      ∧ row_major_order (WorkRange 0 2 0 2) = [(0, 0); (1, 0); (0, 1); (1, 1)]
      ∧ coord <$> omap op_pixel todo ≠ row_major_order (WorkRange 0 2 0 2).
Proof.
  split; [apply scenario_4x4_valid|].
  eexists. split; [vm_compute; reflexivity|].
  split; [reflexivity|]. split; [reflexivity|]. discriminate.
Qed.

(** C8 at the top-left point of the 4 x 4 image. *)
Lemma mandelbrotCalc_total_witness :
  0 ≤ mandelbrotCalc (ops := Exact.ops) scenario_4x4 (Exact.plane scenario_4x4 0 0) ≤ 10.
Proof.
  apply (mandelbrotCalc_total (ops := Exact.ops) scenario_4x4 (Exact.plane scenario_4x4 0 0)).
  simpl. lia.
Defined.

(** ** The end of [main] *)

Example imageName_source : imageName source_config = "mandelbrot_6000_4000_255.png".
Proof. reflexivity. Qed.

(** C9: the file name is built from the width, the height and the
    iteration bound; when [os.Create] fails the error is printed and nothing
    is encoded, otherwise the raster is encoded to that file; in both cases
    [main] returns holding the raster it had. *)
Theorem write_image_outcome cfg (create : string → create_result) img count :
  imageName cfg
  = "mandelbrot_" +:+ pretty (width cfg) +:+ "_" +:+ pretty (height cfg)
      +:+ "_" +:+ pretty (MAX_ITER cfg) +:+ ".png"
  ∧ (write_image cfg create img count).2 = img
  ∧ match create (imageName cfg) with
    | CreateFailed err =>
        (write_image cfg create img count).1
        = [Println ("Pixels rendered: " +:+ pretty count); Println ("err: " +:+ err)]
        ∧ ∀ file raster, PngEncode file raster ∉ (write_image cfg create img count).1
    | Created =>
        (write_image cfg create img count).1
        = [Println ("Pixels rendered: " +:+ pretty count);
           PngEncode (imageName cfg) img;
           Println ("Image created: " +:+ imageName cfg)]
    end.
Proof.
  split; [done|]. unfold write_image.
  destruct (create (imageName cfg)) as [|err]; simpl; split_and!; try done.
  intros file raster Hin. repeat (apply elem_of_cons in Hin as [Hin|Hin]; [done|]).
  by apply elem_of_nil in Hin.
Qed.

(** ** The aggregator *)

Lemma numOfPixels_valid cfg :
  valid_config cfg → numOfPixels cfg = width cfg * height cfg ∧ 1 ≤ numOfPixels cfg.
Proof.
  intros [Hw Hh Hp _ _ _ _]. unfold numOfPixels, GoInt.mul.
  rewrite wrap_in_range by int_range.
  split; [done|nia].
Qed.

Lemma drawer_body_ok cfg p img count :
  valid_config cfg → no_progress_panic cfg →
  0 ≤ count < numOfPixels cfg →
  drawer_body cfg p img count
  = (image_set cfg p img, count + 1, Some (bool_decide (count + 1 = numOfPixels cfg))).
Proof.
  intros Hv Hnp Hc. destruct (numOfPixels_valid cfg Hv) as [Hn H1].
  assert (numOfPixels cfg ≤ GoInt.max_int) as Hmax by (destruct Hv; lia).
  unfold drawer_body, GoInt.add.
  rewrite wrap_in_range by int_range.
  destruct (printDrawingProgress cfg) eqn:Hprint; [|done].
  destruct Hnp as [?|Hten]; [congruence|].
  unfold drawer_progress. rewrite go_div_nonneg by lia. simpl.
  assert (0 < numOfPixels cfg `div` 10) by (apply Z.div_str_pos; lia).
  rewrite go_rem_nonneg by lia. done.
Qed.

Lemma drawer_body_panics cfg p img count :
  printDrawingProgress cfg = true → 0 ≤ numOfPixels cfg < 10 →
  drawer_body cfg p img count = (image_set cfg p img, GoInt.add count 1, None).
Proof.
  intros Hprint Hn. unfold drawer_body. rewrite Hprint.
  unfold drawer_progress, GoInt.div. rewrite decide_False by done. simpl.
  rewrite Z.quot_small by done. by unfold GoInt.rem.
Qed.

(** The loop on a stream: the counter is the number of pixels received, and
    the loop breaks at the pixel that makes it the total. *)
Lemma drawingWorker_counts cfg ps img count :
  valid_config cfg → no_progress_panic cfg →
  0 ≤ count < numOfPixels cfg →
  drawingWorker cfg ps img count
  = if decide (count + Z.of_nat (length ps) < numOfPixels cfg)
    then DrawerWaiting (foldl (λ i p, image_set cfg p i) img ps)
           (count + Z.of_nat (length ps))
    else DrawerDone
           (foldl (λ i p, image_set cfg p i) img
              (take (Z.to_nat (numOfPixels cfg - count)) ps))
           (numOfPixels cfg).
Proof.
  intros Hv Hnp. revert img count. induction ps as [|p ps IH]; intros img count Hc.
  - simpl. rewrite decide_True by lia. f_equal. lia.
  - cbn [drawingWorker]. rewrite drawer_body_ok by done.
    case_bool_decide as Hlast.
    + rewrite decide_False by (rewrite length_cons; lia).
      replace (Z.to_nat (numOfPixels cfg - count)) with 1%nat by lia.
      simpl. by rewrite Hlast.
    + rewrite IH by lia. rewrite length_cons.
      repeat case_decide; try lia.
      * simpl. f_equal. lia.
      * replace (Z.to_nat (numOfPixels cfg - count))
          with (S (Z.to_nat (numOfPixels cfg - (count + 1)))) by lia.
        done.
Qed.

(** C3: on the 2 x 2 image, with progress printed, the drawer panics on the
    division by [numOfPixels/10 = 0] at the first pixel, its counter at 1 of
    4. *)
Theorem drawingWorker_small_image_panics p rest img :
  numOfPixels scenario_2x2 = 4
  ∧ drawingWorker scenario_2x2 (p :: rest) img 0
    = DrawerPanic (image_set scenario_2x2 p img) 1.
Proof.
  split; [reflexivity|]. cbn [drawingWorker].
  rewrite drawer_body_panics by (done || (vm_compute; split; discriminate)).
  reflexivity.
Qed.

(** ** The token protocol *)

Section Protocol.
Context `{ops : Complex64Ops}.
Variable cfg : config.

Lemma calculatorWorker_shape work : worker_shape (calculatorWorker cfg work).
Proof.
  unfold worker_shape, worker_wf, calculatorWorker.
  destruct (worker_pixels cfg work) as [ps|]; simpl; [right; by exists ps|by left].
Qed.

(** What a well-formed worker looks like at its next operation. *)
Lemma worker_wf_send p rest :
  worker_wf (Some (SendPixel p :: rest)) → rest ≠ [] ∧ worker_wf (Some rest).
Proof.
  intros [[|p' ps] Hps]; simplify_eq/=.
  split; [by destruct ps|]. by exists ps.
Qed.

Lemma worker_wf_free rest : worker_wf (Some (SendFreeThread :: rest)) → rest = [].
Proof. intros [[|p' ps] Hps]; by simplify_eq/=. Qed.

Lemma worker_wf_nonempty : ¬ worker_wf (Some []).
Proof. intros [[|p' ps] Hps]; by simplify_eq/=. Qed.

Lemma worker_shape_lookup (ws : list (option (list worker_op))) i todo :
  Forall worker_shape ws → ws !! i = Some (Some todo) → worker_wf (Some todo).
Proof.
  intros Hall Hi. rewrite Forall_lookup in Hall.
  by destruct (Hall i _ Hi) as [?|?].
Qed.

Lemma worker_advance_send i p rest ws :
  ws !! i = Some (Some (SendPixel p :: rest)) →
  worker_wf (Some (SendPixel p :: rest)) →
  worker_advance i rest ws = <[i := Some rest]> ws.
Proof.
  intros _ [Hne _]%worker_wf_send. unfold worker_advance. by destruct rest.
Qed.

Lemma worker_advance_free i rest ws :
  worker_wf (Some (SendFreeThread :: rest)) →
  worker_advance i rest ws = delete i ws.
Proof. intros ->%worker_wf_free. done. Qed.

Lemma init_protocol regions s0 :
  workCreator cfg = Some regions → init cfg = Some s0 → protocol_inv cfg regions s0.
Proof.
  intros Hws. unfold init. rewrite Hws. simpl.
  repeat case_decide; intros; simplify_eq.
  split; simpl; [done|lia|constructor|]. split_and!; [lia..|done|done].
Qed.

Lemma step_protocol regions th s s' :
  protocol_inv cfg regions s → step cfg th s = Some s' → protocol_inv cfg regions s'.
Proof.
  intros [Hwork Hthreads Hshape Htok] Hstep.
  unfold step in Hstep. case_decide as Hrun; [|done].
  destruct s as [st wb ft pb pc wk img cnt dd disp em co]; simpl in *.
  destruct th as [|i| |].
  - (* the starter *)
    unfold calculatorWorkerStarter_step in Hstep; simpl in Hstep.
    destruct pc as [t|wc|w wc|w wc|]; simpl in *.
    + destruct Htok as (Ht & Hlen & -> & ->).
      repeat case_decide; simplify_eq; split; simpl; try done.
      * rewrite length_app. simpl. split_and!; [lia..|done|done].
      * lia.
    + destruct wb as [|w wb]; simplify_eq. split; simpl; try done.
    + destruct ft as [|b ft]; simplify_eq. split; simpl in *; try done. lia.
    + assert (protocol_inv cfg regions
               (State st wb ft pb (RangeRecv (GoInt.sub wc 1))
                  (wk ++ [calculatorWorker cfg w]) img cnt dd (disp ++ [w]) em co)) as Hnext.
      { split; simpl; try done.
        - by rewrite <- Hwork, <- app_assoc.
        - apply Forall_app. split; [done|]. apply Forall_singleton, calculatorWorker_shape.
        - rewrite length_app. simpl. lia. }
      destruct Hnext as [Hwork' _ Hshape' Htok']. simpl in *.
      repeat case_match; simplify_eq; split; simpl; done.
    + done.
  - (* a worker *)
    unfold calculatorWorker_step in Hstep; simpl in Hstep.
    destruct (wk !! i) as [[[|[p|] rest]|]|] eqn:Hi; simplify_eq.
    + pose proof (worker_shape_lookup _ _ _ Hshape Hi) as Hwf.
      case_decide; simplify_eq.
      rewrite (worker_advance_send _ _ _ _ Hi Hwf).
      destruct (worker_wf_send _ _ Hwf) as [_ Hrest].
      split; simpl; [done|done|apply Forall_insert; [done|by right]|].
      destruct pc; simpl in *; rewrite ?length_insert; try done.
      by destruct Htok as (_ & _ & -> & _).
    + pose proof (worker_shape_lookup _ _ _ Hshape Hi) as Hwf.
      case_decide; simplify_eq.
      rewrite (worker_advance_free _ _ _ Hwf).
      apply lookup_lt_Some in Hi as Hlt.
      split; simpl; [done|done|by apply Forall_delete|].
      destruct pc; simpl in *;
        [destruct Htok as (_ & _ & -> & _); simpl in Hlt; lia|..];
        rewrite length_app, length_delete by eauto; simpl; lia.
    + split; done.
  - (* the drawer *)
    unfold drawingWorker_step in Hstep; cbn -[drawer_body] in Hstep.
    destruct dd; [done|]. destruct pb as [|p pb]; [done|].
    destruct (drawer_body cfg p img cnt) as [[img' cnt'] [fin|]];
      simplify_eq; split; simpl; done.
  - (* main *)
    unfold main_step in Hstep; simpl in Hstep.
    destruct dd; simplify_eq. split; done.
Qed.

Lemma run_protocol regions sched s s' :
  protocol_inv cfg regions s → run cfg sched s = Some s' → protocol_inv cfg regions s'.
Proof.
  revert s. induction sched as [|th sched IH]; intros s Hinv Hrun; simpl in Hrun.
  - by simplify_eq.
  - destruct (step cfg th s) as [s1|] eqn:Hstep; [|done]. simpl in Hrun.
    eapply IH; [|done]. by eapply step_protocol.
Qed.

Lemma reachable_protocol regions s :
  workCreator cfg = Some regions → reachable cfg s → protocol_inv cfg regions s.
Proof.
  intros Hws (s0 & sched & Hinit & Hrun).
  eapply run_protocol; [|done]. by apply init_protocol.
Qed.

(** C4: in every state a run can reach, the workers running are at most
    [numThreads]; the starter puts [numThreads] tokens in [freeThreads], and
    from then on the tokens in the channel, the running workers and the
    token in the starter's hand add up to [numThreads]. *)
Theorem active_workers_bounded s :
  reachable cfg s →
  Z.of_nat (length (workers s)) ≤ numThreads cfg
  ∧ Z.of_nat (length (freeThreads s)) ≤ numThreads cfg
  ∧ match starter s with
    | Preload t => Z.of_nat (length (freeThreads s)) = t ∧ workers s = []
    | pc => Z.of_nat (length (freeThreads s)) + Z.of_nat (length (workers s))
              + token_in_hand pc = numThreads cfg
    end.
Proof.
  intros Hreach. assert (∃ regions, workCreator cfg = Some regions) as [regions Hws].
  { destruct Hreach as (s0 & _ & Hinit & _). unfold init in Hinit.
    case_decide; [|done]. destruct (workCreator cfg); [by eexists|done]. }
  destruct (reachable_protocol regions s Hws Hreach) as [_ Hthreads _ Htok].
  destruct (starter s); simpl in *; try (split_and!; [lia..|done]).
  destruct Htok as (? & ? & -> & _). simpl. split_and!; try done; lia.
Qed.

End Protocol.

(** ** Every run is finite *)

Section Termination.
Context `{ops : Complex64Ops}.
Variable cfg : config.

Lemma worker_cost_insert (wk : list (option (list worker_op))) i old new :
  wk !! i = Some old →
  (sum_list (worker_cost <$> <[i := new]> wk) + worker_cost old
   = sum_list (worker_cost <$> wk) + worker_cost new)%nat.
Proof.
  intros Hi. apply lookup_lt_Some in Hi as Hlt.
  rewrite <- (take_drop_middle wk i _ Hi) at 2.
  rewrite insert_take_drop by done.
  rewrite !fmap_app, !fmap_cons, !sum_list_with_app. simpl. lia.
Qed.

Lemma worker_cost_delete (wk : list (option (list worker_op))) i old :
  wk !! i = Some old →
  (sum_list (worker_cost <$> delete i wk) + worker_cost old
   = sum_list (worker_cost <$> wk))%nat.
Proof.
  intros Hi. rewrite <- (take_drop_middle wk i _ Hi) at 2.
  rewrite delete_take_drop.
  rewrite !fmap_app, !fmap_cons, !sum_list_with_app. simpl. lia.
Qed.

Lemma worker_cost_advance (wk : list (option (list worker_op))) i op rest :
  wk !! i = Some (Some (op :: rest)) →
  (sum_list (worker_cost <$> worker_advance i rest wk) + op_cost op
   = sum_list (worker_cost <$> wk))%nat.
Proof.
  intros Hi. unfold worker_advance. destruct rest as [|op' rest].
  - pose proof (worker_cost_delete wk i _ Hi) as H. simpl in H. lia.
  - pose proof (worker_cost_insert wk i _ (Some (op' :: rest)) Hi) as H.
    simpl in *. lia.
Qed.

(** Every step uses up at least one of the steps left. *)
Lemma step_decreases th s s' :
  step cfg th s = Some s' → (steps_left cfg s' < steps_left cfg s)%nat.
Proof.
  intros Hstep. unfold step in Hstep. case_decide as Hrun; [|done].
  destruct s as [st wb ft pb pc wk img cnt dd disp em co]; simpl in *. subst st.
  destruct th as [|i| |].
  - unfold calculatorWorkerStarter_step in Hstep; simpl in Hstep.
    destruct pc as [t|wc|w wc|w wc|]; simpl in *.
    + repeat case_decide; simplify_eq; unfold steps_left; simpl; lia.
    + destruct wb as [|w wb]; simplify_eq. unfold steps_left.
      cbn [status starter workBuffer workers pixelBuffer starter_cost].
      rewrite fmap_cons. cbn [sum_list_with]. unfold id.
      change (region_cost cfg w) with (3 + worker_cost (calculatorWorker cfg w))%nat.
      lia.
    + destruct ft as [|b ft]; simplify_eq. unfold steps_left; simpl. lia.
    + repeat case_match; simplify_eq; unfold steps_left; simpl;
        rewrite ?fmap_app, ?sum_list_with_app; simpl; lia.
    + done.
  - unfold calculatorWorker_step in Hstep; simpl in Hstep.
    destruct (wk !! i) as [[[|[p|] rest]|]|] eqn:Hi; simplify_eq.
    + case_decide; simplify_eq. unfold steps_left; simpl.
      pose proof (worker_cost_advance wk i _ _ Hi) as Hcost. simpl in Hcost.
      rewrite length_app. simpl. lia.
    + case_decide; simplify_eq. unfold steps_left; simpl.
      pose proof (worker_cost_advance wk i _ _ Hi) as Hcost. simpl in Hcost. lia.
    + unfold steps_left; simpl. lia.
  - unfold drawingWorker_step in Hstep; cbn -[drawer_body] in Hstep.
    destruct dd; [done|]. destruct pb as [|p pb]; [done|].
    destruct (drawer_body cfg p img cnt) as [[img' cnt'] [fin|]];
      simplify_eq; unfold steps_left; simpl; lia.
  - unfold main_step in Hstep; simpl in Hstep.
    destruct dd; simplify_eq. unfold steps_left; simpl. lia.
Qed.

Lemma run_bounded sched s s' :
  run cfg sched s = Some s' → (length sched + steps_left cfg s' ≤ steps_left cfg s)%nat.
Proof.
  revert s. induction sched as [|th sched IH]; intros s Hrun; simpl in Hrun.
  - simplify_eq. simpl. lia.
  - destruct (step cfg th s) as [s1|] eqn:Hstep; [|done]. simpl in Hrun.
    apply step_decreases in Hstep. apply IH in Hrun. simpl. lia.
Qed.

Lemma step_dispatched th s s' :
  step cfg th s = Some s' → dispatched s `prefix_of` dispatched s'.
Proof.
  intros Hstep. unfold step in Hstep. case_decide as Hrun; [|done].
  destruct s as [st wb ft pb pc wk img cnt dd disp em co]; simpl in *. subst st.
  destruct th as [|i| |].
  - unfold calculatorWorkerStarter_step in Hstep; simpl in Hstep.
    destruct pc as [t|wc|w wc|w wc|]; simpl in *;
      repeat case_match; simplify_eq; simpl; try done.
    all: by apply prefix_app_r.
  - unfold calculatorWorker_step in Hstep; simpl in Hstep.
    repeat case_match; simplify_eq; done.
  - unfold drawingWorker_step in Hstep; cbn -[drawer_body] in Hstep.
    destruct dd; [done|]. destruct pb as [|p pb]; [done|].
    destruct (drawer_body cfg p img cnt) as [[img' cnt'] [fin|]]; by simplify_eq.
  - unfold main_step in Hstep; simpl in Hstep. destruct dd; simplify_eq. done.
Qed.

Lemma run_dispatched sched s s' :
  run cfg sched s = Some s' → dispatched s `prefix_of` dispatched s'.
Proof.
  revert s. induction sched as [|th sched IH]; intros s Hrun; simpl in Hrun.
  - by simplify_eq.
  - destruct (step cfg th s) as [s1|] eqn:Hstep; [|done]. simpl in Hrun.
    etrans; [by eapply step_dispatched|by apply IH].
Qed.

(** A running state without workers in which neither the starter, the
    drawer nor [main] can move is quiescent. *)
Lemma quiescent_intro s :
  status s = Running → workers s = [] →
  calculatorWorkerStarter_step cfg s = None →
  drawingWorker_step cfg s = None → main_step s = None →
  quiescent cfg s.
Proof.
  intros Hrun Hwk Hst Hdr Hmain th. unfold step. rewrite decide_True by done.
  destruct th as [|i| |]; [done| |done|done].
  unfold calculatorWorker_step. by rewrite Hwk.
Qed.

(** A worker that is not in the list cannot move, so [all_asleep], which
    looks at the goroutines there are, decides [quiescent]. *)
Lemma all_asleep_quiescent s : all_asleep cfg s = true ↔ quiescent cfg s.
Proof.
  unfold all_asleep, quiescent. rewrite forallb_forall. split.
  - intros Hall th.
    assert (th ∈ goroutines s → step cfg th s = None) as Hin.
    { intros Hin. apply list_elem_of_In, Hall in Hin. by destruct (step cfg th s). }
    destruct th as [|i| |]; try (apply Hin; unfold goroutines; set_solver).
    destruct (decide (i < length (workers s))%nat) as [Hlt|Hge].
    + apply Hin. unfold goroutines. do 3 right.
      apply list_elem_of_fmap. exists i. split; [done|]. apply elem_of_seq. lia.
    + unfold step. case_decide; [|done]. unfold calculatorWorker_step.
      rewrite lookup_ge_None_2; [done|lia].
  - intros Hq th _. by rewrite Hq.
Qed.

(** In a state where nothing can move the end of the process is read off
    its status. *)
Lemma process_end_quiescent s :
  quiescent cfg s →
  process_end_of cfg s
  = Some match status s with
         | Exited => MainReturned
         | Panicked => PanicAbort
         | Running => DeadlockAbort
         end.
Proof.
  intros Hq. unfold process_end_of.
  by rewrite (proj2 (all_asleep_quiescent s) Hq).
Qed.

End Termination.

(** ** The pipeline under a valid configuration *)

Section ValidRun.
Context `{ops : Complex64Ops}.
Variable cfg : config.
Hypothesis Hvalid : valid_config cfg.
Variable regions : list workRange.
Hypothesis Hregions : workCreator cfg = Some regions.

Lemma region_pixels_valid work :
  region_pixels cfg work = pixel_at cfg <$> visit_order work.
Proof. unfold region_pixels. by rewrite worker_pixels_valid. Qed.

Lemma calculatorWorker_region work :
  calculatorWorker cfg work
  = Some ((SendPixel <$> region_pixels cfg work) ++ [SendFreeThread]).
Proof. rewrite region_pixels_valid. by apply calculatorWorker_valid. Qed.

Lemma omap_op_pixel_sends ps tail :
  omap op_pixel ((SendPixel <$> ps) ++ tail) = ps ++ omap op_pixel tail.
Proof. induction ps as [|p ps IH]; csimpl; [done|]. by f_equal. Qed.

Lemma pending_spawn wk work :
  pending (wk ++ [calculatorWorker cfg work]) = pending wk ++ region_pixels cfg work.
Proof.
  unfold pending. rewrite bind_app, bind_singleton, calculatorWorker_region.
  simpl. by rewrite omap_op_pixel_sends, app_nil_r.
Qed.

Lemma pending_send (wk : list (option (list worker_op))) i p rest :
  wk !! i = Some (Some (SendPixel p :: rest)) →
  pending wk ≡ₚ p :: pending (<[i := Some rest]> wk).
Proof.
  intros Hi. apply lookup_lt_Some in Hi as Hlt.
  rewrite <- (take_drop_middle wk i _ Hi) at 1.
  rewrite insert_take_drop by done. unfold pending.
  rewrite !bind_app, !bind_cons. simpl. solve_Permutation.
Qed.

Lemma pending_free (wk : list (option (list worker_op))) i :
  wk !! i = Some (Some [SendFreeThread]) →
  pending (delete i wk) = pending wk.
Proof.
  intros Hi. rewrite <- (take_drop_middle wk i _ Hi) at 2.
  rewrite delete_take_drop. unfold pending.
  by rewrite !bind_app, !bind_cons.
Qed.

Lemma regions_length : Z.of_nat (length regions) ≤ numWorkTasks cfg.
Proof.
  pose proof (sqrt_tasks cfg Hvalid) as (Hr1 & Hr2 & _).
  rewrite workCreator_grid in Hregions by done. simplify_eq.
  rewrite grid_length by lia. lia.
Qed.

Lemma starter_progress_ok wc : 1 ≤ wc ≤ GoInt.max_int → is_Some (starter_progress wc).
Proof.
  intros Hwc. unfold starter_progress. rewrite go_div_nonneg by lia. simpl.
  assert (0 ≤ wc `div` 10 < wc).
  { split; [apply Z.div_pos; lia|]. apply Z.div_lt_upper_bound; lia. }
  unfold GoInt.add.
  rewrite wrap_in_range by int_range.
  rewrite go_rem_nonneg by lia. by eexists.
Qed.

Lemma drawer_body_cases p img count :
  0 ≤ count < numOfPixels cfg →
  ∃ next, drawer_body cfg p img count = (image_set cfg p img, count + 1, next)
    ∧ ((next = None ∧ ¬ no_progress_panic cfg)
       ∨ next = Some (bool_decide (count + 1 = numOfPixels cfg))).
Proof.
  intros Hc. destruct (numOfPixels_valid cfg Hvalid) as [Hn H1].
  assert (numOfPixels cfg ≤ GoInt.max_int) as Hmax by (destruct Hvalid; lia).
  destruct (drawer_body cfg p img count) as [[img' count'] next] eqn:Hbody.
  assert (img' = image_set cfg p img ∧ count' = count + 1) as [-> ->].
  { unfold drawer_body, GoInt.add in Hbody.
    rewrite wrap_in_range in Hbody
      by int_range.
    by simplify_eq. }
  exists next. split; [done|].
  destruct next as [fin|].
  - right. unfold drawer_body, GoInt.add in Hbody.
    rewrite wrap_in_range in Hbody
      by int_range.
    repeat case_match; by simplify_eq.
  - left. split; [done|]. intros Hnp.
    rewrite drawer_body_ok in Hbody by done. by simplify_eq.
Qed.

Lemma init_pipeline s0 : init cfg = Some s0 → pipeline_inv cfg regions s0.
Proof.
  intros Hinit. pose proof (init_protocol cfg regions s0 Hregions Hinit) as Hproto.
  unfold init in Hinit. rewrite Hregions in Hinit. simpl in Hinit.
  destruct (numOfPixels_valid cfg Hvalid) as [_ H1].
  repeat case_decide; simplify_eq.
  split; simpl; try done; lia.
Qed.

Lemma step_pipeline th s s' :
  pipeline_inv cfg regions s → step cfg th s = Some s' → pipeline_inv cfg regions s'.
Proof.
  intros [Hproto Hwf Hcounter Hchan Hcount Hdone Hnot Himg Hexit Hpanic Hpix] Hstep.
  pose proof (step_protocol cfg regions th s s' Hproto Hstep) as Hproto'.
  unfold step in Hstep. case_decide as Hrun; [|done].
  specialize (Hnot ltac:(by rewrite Hrun)).
  assert (Z.of_nat (length (dispatched s)) + Z.of_nat (length (in_hand (starter s)))
          ≤ numWorkTasks cfg) as Hlen.
  { pose proof regions_length as Hlen. rewrite <- (inv_work _ _ _ Hproto) in Hlen.
    rewrite !length_app in Hlen. lia. }
  destruct s as [st wb ft pb pc wk img cnt dd disp em co]; simpl in *. subst st.
  destruct th as [|i| |].
  - (* the starter *)
    unfold calculatorWorkerStarter_step in Hstep; simpl in Hstep.
    destruct pc as [t|wc|w wc|w wc|]; simpl in *.
    + destruct (inv_tokens _ _ _ Hproto) as (_ & _ & _ & Hd). simpl in Hd. subst disp.
      repeat case_decide; simplify_eq; split; simpl in *; try done.
      destruct Hvalid. lia.
    + destruct wb as [|w wb]; simplify_eq. split; simpl; done.
    + destruct ft as [|b ft]; simplify_eq. split; simpl; done.
    + destruct Hcounter as [-> Hwc]. simpl in Hlen.
      assert (GoInt.sub (numWorkTasks cfg - Z.of_nat (length disp)) 1
              = numWorkTasks cfg - Z.of_nat (length (disp ++ [w]))) as Hsub.
      { unfold GoInt.sub. rewrite length_app. simpl.
        rewrite wrap_in_range; [lia|].
        destruct Hvalid. int_range. }
      rewrite Hsub in Hstep.
      assert (Forall worker_wf (wk ++ [calculatorWorker cfg w])) as Hwf'.
      { apply Forall_app. split; [done|]. apply Forall_singleton.
        rewrite calculatorWorker_region. by eexists. }
      assert (em ++ pending (wk ++ [calculatorWorker cfg w]) ++ (wb ≫= region_pixels cfg)
              ≡ₚ regions ≫= region_pixels cfg) as Hpix'.
      { rewrite <- Hpix, pending_spawn. solve_Permutation. }
      rewrite length_app in *. simpl in *.
      case_decide as Hzero.
      { simplify_eq. split; simpl; try done. rewrite length_app. simpl. lia. }
      destruct (starter_progress_ok (numWorkTasks cfg - Z.of_nat (length disp + 1)))
        as [b Hb].
      { destruct Hvalid. unfold GoInt.max_int. lia. }
      rewrite Hb in Hstep.
      destruct (printCalculatingProgress cfg); simplify_eq; split; simpl; try done.
      all: rewrite length_app; simpl; lia.
    + done.
  - (* a worker *)
    unfold calculatorWorker_step in Hstep; simpl in Hstep.
    destruct (wk !! i) as [[[|[p|] rest]|]|] eqn:Hi; simplify_eq.
    + assert (worker_wf (Some (SendPixel p :: rest))) as Hw
        by (rewrite Forall_lookup in Hwf; by eapply Hwf).
      case_decide; simplify_eq.
      rewrite (worker_advance_send _ _ _ _ Hi Hw).
      destruct (worker_wf_send _ _ Hw) as [_ Hrest].
      rewrite (worker_advance_send _ _ _ _ Hi Hw) in Hproto'.
      split; simpl; try done.
      * by apply Forall_insert.
      * by rewrite <- app_assoc.
      * rewrite <- Hpix, (pending_send wk i p rest Hi). solve_Permutation.
    + assert (worker_wf (Some (SendFreeThread :: rest))) as Hw
        by (rewrite Forall_lookup in Hwf; by eapply Hwf).
      case_decide; simplify_eq.
      rewrite (worker_advance_free _ _ _ Hw) in Hproto' |- *.
      apply worker_wf_free in Hw as ->.
      split; simpl; try done.
      * by apply Forall_delete.
      * by rewrite pending_free.
    + rewrite Forall_lookup in Hwf. destruct (Hwf i _ Hi) as [ps ?]. done.
  - (* the drawer *)
    unfold drawingWorker_step in Hstep; cbn -[drawer_body] in Hstep.
    destruct dd; [done|]. destruct pb as [|p pb]; [done|].
    destruct Hcount as [Hcnt Hle]. specialize (Hnot eq_refl).
    destruct (drawer_body_cases p img cnt ltac:(lia)) as (next & Hbody & Hnext).
    rewrite Hbody in Hstep.
    destruct Hnext as [[-> Hnp]| ->]; simplify_eq; split; simpl; try done.
    all: rewrite ?length_app, ?foldl_app; simpl; try (split; lia).
    all: try (by rewrite <- app_assoc).
    + by intros ?%bool_decide_eq_true.
    + intros _ ?%bool_decide_eq_false. lia.
  - (* main *)
    unfold main_step in Hstep; simpl in Hstep.
    destruct dd; simplify_eq. split; done.
Qed.


Lemma run_pipeline sched s s' :
  pipeline_inv cfg regions s → run cfg sched s = Some s' → pipeline_inv cfg regions s'.
Proof.
  revert s. induction sched as [|th sched IH]; intros s Hinv Hrun; simpl in Hrun.
  - by simplify_eq.
  - destruct (step cfg th s) as [s1|] eqn:Hstep; [|done]. simpl in Hrun.
    eapply IH; [|done]. by eapply step_pipeline.
Qed.

Lemma reachable_pipeline s : reachable cfg s → pipeline_inv cfg regions s.
Proof.
  intros (s0 & sched & Hinit & Hrun).
  eapply run_pipeline; [|done]. by apply init_pipeline.
Qed.

(** *** The pixels of all regions *)

Local Abbreviation r := (GoInt.sqrt (numWorkTasks cfg)).
Local Abbreviation work_width := (width cfg `div` r).
Local Abbreviation work_height := (height cfg `div` r).

Lemma regions_grid : regions = grid r work_width work_height.
Proof. rewrite workCreator_grid in Hregions by done. by simplify_eq. Qed.

Lemma grid_bounds :
  1 ≤ r ∧ 0 ≤ work_width ∧ 0 ≤ work_height
  ∧ r * work_width ≤ width cfg ∧ r * work_height ≤ height cfg.
Proof.
  pose proof (sqrt_tasks cfg Hvalid) as (Hr1 & _).
  destruct Hvalid as [Hw Hh _ _ _ _ _].
  split_and!; [done|apply Z.div_pos; lia|apply Z.div_pos; lia
              |apply Z.mul_div_le; lia|apply Z.mul_div_le; lia].
Qed.

Lemma length_bind_const {X Y} (f : X → list Y) (l : list X) (k : nat) :
  (∀ x, x ∈ l → length (f x) = k) → length (l ≫= f) = (length l * k)%nat.
Proof.
  induction l as [|x l IH]; intros Hk; [done|].
  rewrite bind_cons, length_app, Hk, IH by set_solver. simpl. lia.
Qed.

Lemma fmap_bind_list {X Y W} (g : Y → W) (f : X → list Y) (l : list X) :
  g <$> (l ≫= f) = l ≫= (λ x, g <$> f x).
Proof.
  induction l as [|x l IH]; [done|]. by rewrite !bind_cons, fmap_app, IH.
Qed.

Lemma coord_pixel_at q : coord (pixel_at cfg q) = q.
Proof. by destruct q. Qed.

Lemma region_coords work : coord <$> region_pixels cfg work = visit_order work.
Proof.
  rewrite region_pixels_valid, <- list_fmap_compose.
  rewrite <- (list_fmap_id (visit_order work)) at 2.
  apply list_fmap_ext. intros _ q _. apply coord_pixel_at.
Qed.

Lemma all_coords : coord <$> (regions ≫= region_pixels cfg) = regions ≫= visit_order.
Proof.
  rewrite fmap_bind_list. apply Forall_bind_ext, Forall_forall.
  intros w _. apply region_coords.
Qed.

Lemma all_pixels_length :
  Z.of_nat (length (regions ≫= region_pixels cfg))
  = (r * work_width) * (r * work_height).
Proof.
  destruct grid_bounds as (Hr & Hww & Hwh & _).
  rewrite (length_bind_const _ _ (Z.to_nat work_width * Z.to_nat work_height)).
  - rewrite regions_grid, grid_length by lia. nia.
  - intros w Hw. rewrite regions_grid in Hw.
    apply grid_elem in Hw as (i & j & _ & _ & ->).
    rewrite region_pixels_valid, length_fmap, visit_order_length.
    unfold grid_cell. simpl. f_equal; f_equal; lia.
Qed.

(** *** When the drawer is done *)

Lemma done_everything_received s :
  pipeline_inv cfg regions s → drawer_done s = true →
  pixelBuffer s = [] ∧ pending (workers s) = []
  ∧ (in_hand (starter s) ++ workBuffer s) ≫= region_pixels cfg = []
  ∧ r * work_width = width cfg ∧ r * work_height = height cfg
  ∧ consumed s = emitted s
  ∧ emitted s ≡ₚ regions ≫= region_pixels cfg
  ∧ Z.of_nat (length (emitted s)) = width cfg * height cfg.
Proof.
  intros [_ _ _ Hchan [Hcnt _] Hdone _ _ _ _ Hpix] Hdd.
  specialize (Hdone Hdd). destruct (numOfPixels_valid cfg Hvalid) as [Hn _].
  destruct grid_bounds as (Hr & Hww & Hwh & Hrw & Hrh).
  pose proof all_pixels_length as Hall.
  rewrite <- Hpix, Hchan, !length_app in Hall.
  destruct Hvalid as [Hw Hh _ _ _ _ _].
  assert ((r * work_width) * (r * work_height) ≤ width cfg * height cfg) as Hle by nia.
  assert (length (pixelBuffer s) = 0%nat) as Hpb by lia.
  assert (length (pending (workers s)) = 0%nat) as Hpend by lia.
  assert (length ((in_hand (starter s) ++ workBuffer s) ≫= region_pixels cfg) = 0%nat)
    as Hund by lia.
  apply nil_length_inv in Hpb, Hpend, Hund.
  assert ((r * work_width) * (r * work_height) = width cfg * height cfg) as Heq.
  { rewrite Hpb, Hpend, Hund in Hall. simpl in Hall. lia. }
  assert (r * work_width = width cfg) by nia.
  assert (r * work_height = height cfg) by nia.
  rewrite Hpend, Hund in Hpix. rewrite !app_nil_r in Hpix.
  rewrite Hpb, app_nil_r in Hchan.
  split_and!; try done. rewrite Hpix. rewrite all_pixels_length. lia.
Qed.

Lemma visit_order_NoDup work : NoDup (visit_order work).
Proof.
  unfold visit_order, for_range. apply NoDup_bind; [| |apply NoDup_seqZ].
  - intros x1 x2 q _ _ H1 H2.
    apply list_elem_of_bind in H1 as (y1 & ->%list_elem_of_singleton & _).
    apply list_elem_of_bind in H2 as (y2 & [= ? ?]%list_elem_of_singleton & _). done.
  - intros x _. apply NoDup_bind; [| |apply NoDup_seqZ].
    + intros y1 y2 q _ _ ->%list_elem_of_singleton [= ?]%list_elem_of_singleton. done.
    + intros y _. apply NoDup_singleton.
Qed.

Lemma region_exists_count (ws : list workRange) q :
  (∃ w, w ∈ ws ∧ contains w q) ↔ (0 < length (filter (λ w, contains w q) ws))%nat.
Proof.
  split.
  - intros (w & Hw & Hc).
    assert (w ∈ filter (λ w, contains w q) ws) as Hin by (by apply list_elem_of_filter).
    destruct (filter (λ w, contains w q) ws); [by apply elem_of_nil in Hin|simpl; lia].
  - intros Hlen. destruct (filter (λ w, contains w q) ws) as [|w l] eqn:Hf; [simpl in Hlen; lia|].
    assert (w ∈ filter (λ w, contains w q) ws) as Hin by (rewrite Hf; left).
    apply list_elem_of_filter in Hin as [Hc Hw]. by exists w.
Qed.

Lemma done_coords s :
  pipeline_inv cfg regions s → drawer_done s = true →
  NoDup (coord <$> emitted s) ∧ (∀ q, q ∈ coord <$> emitted s ↔ in_image cfg q).
Proof.
  intros Hinv Hdd.
  destruct (done_everything_received s Hinv Hdd)
    as (_ & _ & _ & Hrw & Hrh & _ & Hperm & _).
  destruct (grid_tiling cfg Hvalid Hrw Hrh) as (Hnd & Hcount & Hdisj).
  rewrite <- regions_grid in Hnd, Hcount, Hdisj.
  split.
  - rewrite Hperm, all_coords.
    apply NoDup_bind; [|intros; apply visit_order_NoDup|done].
    intros w1 w2 q H1 H2 Hq1%visit_order_elem Hq2%visit_order_elem.
    by apply (Hdisj w1 w2 q).
  - intros q. rewrite Hperm, all_coords, list_elem_of_bind.
    transitivity (∃ w, w ∈ regions ∧ contains w q).
    { split; intros (w & H1 & H2); exists w; [by apply visit_order_elem in H1|].
      by split; [apply visit_order_elem|]. }
    rewrite region_exists_count, Hcount. case_decide; split; try done; lia.
Qed.

Lemma image_fold_other (l : list pixel) (img : gmap (Z * Z) RGBA) q :
  q ∉ coord <$> l →
  foldl (λ i p, image_set cfg p i) img l !! q = img !! q.
Proof.
  revert img. induction l as [|a l IH]; intros img Hq; [done|].
  rewrite fmap_cons in Hq. apply not_elem_of_cons in Hq as [Hne Hq].
  simpl. rewrite IH by done. unfold image_set.
  case_decide; [|done]. by rewrite lookup_insert_ne.
Qed.

Lemma image_fold_lookup (l : list pixel) (img : gmap (Z * Z) RGBA) p :
  NoDup (coord <$> l) → p ∈ l → in_image cfg (coord p) →
  foldl (λ i p, image_set cfg p i) img l !! coord p = Some (col p).
Proof.
  revert img. induction l as [|a l IH]; intros img Hnd Hp Hin.
  { by apply elem_of_nil in Hp. }
  rewrite fmap_cons in Hnd. apply NoDup_cons in Hnd as [Ha Hnd]. simpl.
  apply elem_of_cons in Hp as [->|Hp]; [|by apply IH].
  rewrite image_fold_other by done. unfold image_set.
  rewrite decide_True by done. apply lookup_insert_eq.
Qed.

(** C2: when the drawer is done, the workers have sent [width * height]
    pixels, one for each pixel of the image and no coordinate twice; the
    drawer has received all of them, and the raster holds each one's
    colour. *)
Theorem complete_run_pixels s :
  reachable cfg s → drawer_done s = true →
  Z.of_nat (length (emitted s)) = width cfg * height cfg
  ∧ NoDup (coord <$> emitted s)
  ∧ (∀ q, q ∈ coord <$> emitted s ↔ in_image cfg q)
  ∧ consumed s = emitted s
  ∧ pixelCount s = width cfg * height cfg
  ∧ (∀ p, p ∈ emitted s → image s !! coord p = Some (col p)).
Proof.
  intros Hreach Hdd. pose proof (reachable_pipeline s Hreach) as Hinv.
  destruct (done_everything_received s Hinv Hdd)
    as (_ & _ & _ & _ & _ & Hco & _ & Hlen).
  destruct (done_coords s Hinv Hdd) as [Hnd Hcov].
  split_and!; try done.
  - destruct (inv_count _ _ _ Hinv) as [-> _]. by rewrite Hco.
  - intros p Hp. rewrite (inv_image _ _ _ Hinv), Hco.
    apply image_fold_lookup; [done..|]. apply Hcov. by apply list_elem_of_fmap_2.
Qed.
(** *** The dispatcher *)

Lemma undispatched_nil (l : list workRange) :
  r * work_width = width cfg → r * work_height = height cfg →
  (∀ w, w ∈ l → w ∈ regions) →
  l ≫= region_pixels cfg = [] → l = [].
Proof.
  intros Hrw Hrh Hsub Hnil. destruct l as [|w l]; [done|].
  rewrite bind_cons in Hnil. apply app_eq_nil in Hnil as [Hw _].
  assert (w ∈ regions) as Hin by (apply Hsub; left).
  rewrite regions_grid in Hin. apply grid_elem in Hin as (i & j & _ & _ & ->).
  apply (f_equal length) in Hw.
  rewrite region_pixels_valid, length_fmap, visit_order_length in Hw.
  unfold grid_cell in Hw. simpl in Hw.
  destruct grid_bounds as (Hr & _). destruct Hvalid as [Hwd Hht _ _ _ _ _]. nia.
Qed.

Lemma done_dispatched s :
  pipeline_inv cfg regions s → drawer_done s = true → dispatched s = regions.
Proof.
  intros Hinv Hdd.
  destruct (done_everything_received s Hinv Hdd) as (_ & _ & Hund & Hrw & Hrh & _).
  pose proof (inv_work _ _ _ (inv_protocol _ _ _ Hinv)) as Hwork.
  apply undispatched_nil in Hund; [|done|done|].
  - by rewrite Hund, app_nil_r in Hwork.
  - intros w Hw. rewrite <- Hwork. apply elem_of_app. by right.
Qed.

Lemma quiescent_dispatched s :
  pipeline_inv cfg regions s → quiescent cfg s → status s = Running →
  dispatched s = regions.
Proof.
  intros Hinv Hq Hrun.
  pose proof (Hq TStarter) as Hst. pose proof (Hq TDrawer) as Hdr.
  pose proof (Hq TMain) as Hmain. pose proof (Hq (TWorker 0)) as Hwk0.
  unfold step in Hst, Hdr, Hmain, Hwk0. rewrite decide_True in Hst, Hdr, Hmain, Hwk0 by done.
  destruct (numOfPixels_valid cfg Hvalid) as [_ Hpix1].
  destruct Hinv as [[Hwork Hthreads _ Htok] Hwf Hcounter _ _ _ _ _ _ _ _].
  pose proof regions_length as Hlen. rewrite <- Hwork, !length_app in Hlen.
  destruct s as [st wb ft pb pc wk img cnt dd disp em co]; simpl in *.
  unfold main_step in Hmain; simpl in Hmain. destruct dd; [done|].
  unfold drawingWorker_step in Hdr; cbn -[drawer_body] in Hdr.
  destruct pb as [|p pb];
    [|by destruct (drawer_body cfg p img cnt) as [[? ?] [?|]]].
  assert (wk = []) as ->.
  { destruct wk as [|w0 wk]; [done|]. exfalso.
    apply Forall_cons in Hwf as [[ps ->] _].
    unfold calculatorWorker_step in Hwk0; simpl in Hwk0.
    destruct ps as [|p ps]; simpl in Hwk0.
    - destruct pc; simpl in *; [by destruct Htok as (_ & _ & ? & _)|..];
        rewrite decide_True in Hwk0 by lia; done.
    - rewrite decide_True in Hwk0 by lia. done. }
  unfold calculatorWorkerStarter_step in Hst; simpl in Hst.
  destruct Hvalid as [_ _ _ _ Hth _ _].
  destruct pc as [t|wc|w wc|w wc|]; simpl in *.
  - destruct Htok as (Ht & Hft & _). repeat case_decide; try done; lia.
  - destruct wb; [by rewrite app_nil_r in Hwork|done].
  - destruct ft; [simpl in Htok; lia|done].
  - repeat case_match; done.
  - assert (length wb = 0%nat) as Hwb by lia. apply nil_length_inv in Hwb.
    by rewrite Hwb, app_nil_r in Hwork.
Qed.

Lemma all_dispatched_starter s :
  pipeline_inv cfg regions s → dispatched s = regions →
  workBuffer s = []
  ∧ (starter s = StarterReturned ∨ ∃ wc, starter s = RangeRecv wc).
Proof.
  intros [[Hwork _ _ Htok] _ _ _ _ _ _ _ _ _ _] Hall.
  rewrite Hall in Hwork. rewrite <- (app_nil_r regions) in Hwork at 2.
  apply app_inv_head, app_eq_nil in Hwork as [Hhand Hwb].
  split; [done|].
  destruct (starter s) as [t|wc|w wc|w wc|]; simpl in *; try done; eauto.
  destruct Htok as (_ & _ & _ & Hnil). rewrite Hnil in Hall.
  pose proof regions_grid as Hgrid. rewrite <- Hall in Hgrid.
  apply (f_equal length) in Hgrid. rewrite grid_length in Hgrid; simpl in Hgrid.
  - destruct grid_bounds as (Hr & _). nia.
  - destruct grid_bounds as (Hr & _). lia.
Qed.

Lemma spawn_enabled s w wc :
  starter s = Spawn w wc → status s = Running → is_Some (step cfg TStarter s).
Proof.
  intros Hpc Hrun. unfold step, calculatorWorkerStarter_step. rewrite decide_True by done.
  rewrite Hpc. repeat case_match; by eexists.
Qed.

Lemma later_dispatched s sched s' :
  pipeline_inv cfg regions s → dispatched s = regions →
  run cfg sched s = Some s' → dispatched s' = regions.
Proof.
  intros Hinv Hall Hrun.
  pose proof (run_dispatched cfg sched s s' Hrun) as [k Hk].
  pose proof (run_pipeline sched s s' Hinv Hrun) as Hinv'.
  pose proof (inv_work _ _ _ (inv_protocol _ _ _ Hinv')) as Hwork.
  rewrite Hk, Hall in Hwork. rewrite <- (app_nil_r regions) in Hwork at 2.
  rewrite <- app_assoc in Hwork.
  apply app_inv_head, app_eq_nil in Hwork as [-> _].
  by rewrite Hk, Hall, app_nil_r.
Qed.

(** The dispatcher in a process that does not panic: the regions
    dispatched so far, the one in the starter's hand and
    those still in [workBuffer] are, in this order, the regions the
    partitioner produced; every run is finite, and when nothing can move
    any more and the process has not panicked, every region has been
    dispatched; from then on the starter has returned or waits on the empty
    [workBuffer] and dispatches nothing more; at the [go] statement it never
    waits, whatever the workers are doing. *)
Theorem dispatcher_dispatches_all s0 sched s :
  init cfg = Some s0 → run cfg sched s0 = Some s →
  dispatched s ++ in_hand (starter s) ++ workBuffer s = regions
  ∧ (length sched ≤ steps_left cfg s0)%nat
  ∧ (quiescent cfg s → status s ≠ Panicked → dispatched s = regions)
  ∧ (no_progress_panic cfg → status s ≠ Panicked)
  ∧ (dispatched s = regions →
       workBuffer s = []
       ∧ (starter s = StarterReturned ∨ ∃ wc, starter s = RangeRecv wc)
       ∧ ∀ sched' s', run cfg sched' s = Some s' → dispatched s' = regions)
  ∧ (∀ w wc, starter s = Spawn w wc → status s = Running →
       is_Some (step cfg TStarter s)).
Proof.
  intros Hinit Hrun.
  assert (pipeline_inv cfg regions s) as Hinv.
  { apply reachable_pipeline. by exists s0, sched. }
  split; [apply (inv_work _ _ _ (inv_protocol _ _ _ Hinv))|].
  split; [pose proof (run_bounded cfg sched s0 s Hrun); lia|].
  split.
  { intros Hq Hnp. destruct (status s) eqn:Hst; [|done|].
    - by apply quiescent_dispatched.
    - apply done_dispatched; [done|]. by apply (inv_exit _ _ _ Hinv). }
  split; [apply (inv_no_panic _ _ _ Hinv)|].
  split.
  { intros Hall. destruct (all_dispatched_starter s Hinv Hall) as [Hwb Hpc].
    split_and!; [done..|]. intros sched' s' Hrun'. by eapply later_dispatched. }
  intros w wc. apply spawn_enabled.
Qed.

(** *** What holds at every moment of a run *)

Lemma grid_cell_disjoint ww wh i1 j1 i2 j2 q :
  contains (grid_cell ww wh i1 j1) q → contains (grid_cell ww wh i2 j2) q →
  i1 = i2 ∧ j1 = j2.
Proof. unfold contains, grid_cell. simpl. intros [? ?] [? ?]. split; nia. Qed.

Lemma bind_bind_list {X Y W} (f : X → list Y) (g : Y → list W) (l : list X) :
  (l ≫= f) ≫= g = l ≫= (λ x, f x ≫= g).
Proof.
  induction l as [|x l IH]; [done|]. by rewrite !bind_cons, bind_app, IH.
Qed.

(** The coordinates of all regions, in partition order, without repetition:
    also when the cells do not divide the image, and when they are empty. *)
Lemma all_coords_NoDup : NoDup (regions ≫= visit_order).
Proof.
  rewrite regions_grid. unfold grid. rewrite bind_bind_list.
  apply NoDup_bind; [| |apply NoDup_seqZ].
  - intros i1 i2 q _ _ H1 H2. rewrite bind_bind_list in H1, H2.
    apply list_elem_of_bind in H1 as (j1 & Hq1 & _), H2 as (j2 & Hq2 & _).
    rewrite bind_singleton in Hq1, Hq2. apply visit_order_elem in Hq1, Hq2.
    by destruct (grid_cell_disjoint _ _ _ _ _ _ _ Hq1 Hq2).
  - intros i _. rewrite bind_bind_list. apply NoDup_bind; [| |apply NoDup_seqZ].
    + intros j1 j2 q _ _ Hq1 Hq2.
      rewrite bind_singleton in Hq1, Hq2. apply visit_order_elem in Hq1, Hq2.
      by destruct (grid_cell_disjoint _ _ _ _ _ _ _ Hq1 Hq2).
    + intros j _. rewrite bind_singleton. apply visit_order_NoDup.
Qed.

Lemma all_pixels_elem p :
  p ∈ regions ≫= region_pixels cfg →
  p = pixel_at cfg (coord p) ∧ ∃ w, w ∈ regions ∧ contains w (coord p).
Proof.
  intros (w & Hp & Hw)%list_elem_of_bind. rewrite region_pixels_valid in Hp.
  apply list_elem_of_fmap in Hp as (q & -> & Hq). rewrite coord_pixel_at.
  split; [done|]. exists w. split; [done|]. by apply visit_order_elem.
Qed.

Lemma region_in_image w q : w ∈ regions → contains w q → in_image cfg q.
Proof.
  rewrite regions_grid. intros (i & j & Hi & Hj & ->)%grid_elem.
  destruct grid_bounds as (Hr & Hww & Hwh & Hrw & Hrh).
  unfold contains, grid_cell, in_image. simpl. intros [? ?]. split; nia.
Qed.

Lemma emitted_of_dispatched s :
  pipeline_inv cfg regions s →
  emitted s ++ pending (workers s) ≡ₚ dispatched s ≫= region_pixels cfg.
Proof.
  intros Hinv. pose proof (inv_pixels _ _ _ Hinv) as Hpix.
  pose proof (inv_work _ _ _ (inv_protocol _ _ _ Hinv)) as Hwork.
  remember (in_hand (starter s) ++ workBuffer s) as und eqn:Hund.
  rewrite <- Hwork, bind_app, app_assoc in Hpix.
  by apply Permutation_app_inv_r in Hpix.
Qed.

Lemma emitted_safe s :
  pipeline_inv cfg regions s →
  NoDup (coord <$> emitted s)
  ∧ ∀ p, p ∈ emitted s →
      in_image cfg (coord p) ∧ p = pixel_at cfg (coord p)
      ∧ ∃ w, w ∈ dispatched s ∧ contains w (coord p).
Proof.
  intros Hinv. pose proof (inv_pixels _ _ _ Hinv) as Hpix. split.
  - pose proof all_coords_NoDup as Hnd.
    rewrite <- all_coords, <- Hpix, fmap_app in Hnd.
    by apply NoDup_app in Hnd as [Hnd _].
  - intros p Hp.
    assert (p ∈ regions ≫= region_pixels cfg) as Hall
      by (rewrite <- Hpix; apply elem_of_app; by left).
    destruct (all_pixels_elem p Hall) as [Heq (w & Hw & Hc)].
    split_and!; [by eapply region_in_image|done|].
    assert (p ∈ dispatched s ≫= region_pixels cfg) as Hdisp
      by (rewrite <- (emitted_of_dispatched s Hinv); apply elem_of_app; by left).
    apply list_elem_of_bind in Hdisp as (w' & Hp' & Hw').
    exists w'. split; [done|]. rewrite region_pixels_valid in Hp'.
    apply list_elem_of_fmap in Hp' as (q & -> & Hq). rewrite coord_pixel_at.
    by apply visit_order_elem.
Qed.

(** X1: at every moment of a run no coordinate has been sent twice, and
    every pixel sent lies in the image, in a region that has been
    dispatched, and is the grey pixel of its point. *)
Theorem sent_pixels_safe s :
  reachable cfg s →
  NoDup (coord <$> emitted s)
  ∧ ∀ p, p ∈ emitted s →
      in_image cfg (coord p) ∧ p = pixel_at cfg (coord p)
      ∧ ∃ w, w ∈ dispatched s ∧ contains w (coord p).
Proof. intros Hreach. by apply emitted_safe, reachable_pipeline. Qed.

Lemma consumed_safe s :
  pipeline_inv cfg regions s →
  NoDup (coord <$> consumed s)
  ∧ ∀ p, p ∈ consumed s → in_image cfg (coord p) ∧ p = pixel_at cfg (coord p).
Proof.
  intros Hinv. destruct (emitted_safe s Hinv) as [Hnd Hin].
  rewrite (inv_channel _ _ _ Hinv) in Hnd, Hin. rewrite fmap_app in Hnd.
  apply NoDup_app in Hnd as [Hnd _]. split; [done|].
  intros p Hp. destruct (Hin p) as (? & ? & _); [apply elem_of_app; by left|done].
Qed.

Lemma image_fold_spec (l : list pixel) q c :
  NoDup (coord <$> l) → (∀ p, p ∈ l → in_image cfg (coord p)) →
  foldl (λ i p, image_set cfg p i) ∅ l !! q = Some c
  ↔ ∃ p, p ∈ l ∧ coord p = q ∧ col p = c.
Proof.
  intros Hnd Hin. split.
  - intros Hq. destruct (decide (q ∈ coord <$> l)) as [Hel|Hnel].
    + apply list_elem_of_fmap in Hel as (p & -> & Hp). exists p.
      rewrite image_fold_lookup in Hq by auto. by simplify_eq.
    + by rewrite image_fold_other, lookup_empty in Hq.
  - intros (p & Hp & <- & <-). by apply image_fold_lookup; auto.
Qed.

(** X2: at every moment of a run the raster holds exactly the pixels the
    drawer has received so far, each under its own coordinates, and the
    counter is their number. *)
Theorem raster_holds_received s :
  reachable cfg s →
  pixelCount s = Z.of_nat (length (consumed s))
  ∧ ∀ q c, image s !! q = Some c ↔ ∃ p, p ∈ consumed s ∧ coord p = q ∧ col p = c.
Proof.
  intros Hreach. pose proof (reachable_pipeline s Hreach) as Hinv.
  destruct (consumed_safe s Hinv) as [Hnd Hin].
  split; [apply (inv_count _ _ _ Hinv)|].
  intros q c. rewrite (inv_image _ _ _ Hinv).
  apply image_fold_spec; [done|]. intros p Hp. by apply Hin.
Qed.

Lemma emitted_bound s :
  pipeline_inv cfg regions s →
  Z.of_nat (length (emitted s)) + Z.of_nat (length (pending (workers s)))
  ≤ (r * work_width) * (r * work_height)
  ∧ (r * work_width) * (r * work_height) ≤ numOfPixels cfg.
Proof.
  intros Hinv. pose proof all_pixels_length as Hall.
  rewrite <- (inv_pixels _ _ _ Hinv), !length_app in Hall.
  destruct grid_bounds as (Hr & Hww & Hwh & Hrw & Hrh).
  destruct (numOfPixels_valid cfg Hvalid) as [-> _].
  destruct Hvalid as [Hw Hh _ _ _ _ _]. split; [lia|nia].
Qed.

(** X3: the channels never fill up and the counter never passes the total:
    [pixelBuffer] holds the pixels sent and not yet received, at most
    [numOfPixels] were sent, and the counter stays between 0 and
    [numOfPixels]. *)
Theorem channels_within_capacity s :
  reachable cfg s →
  emitted s = consumed s ++ pixelBuffer s
  ∧ Z.of_nat (length (emitted s)) ≤ numOfPixels cfg
  ∧ 0 ≤ pixelCount s ≤ numOfPixels cfg
  ∧ Z.of_nat (length (freeThreads s)) ≤ numThreads cfg.
Proof.
  intros Hreach. pose proof (reachable_pipeline s Hreach) as Hinv.
  destruct (emitted_bound s Hinv) as [Hem Hle].
  destruct (inv_count _ _ _ Hinv) as [Hcnt Hmax].
  split; [apply (inv_channel _ _ _ Hinv)|]. split; [lia|]. split; [lia|].
  pose proof (inv_tokens _ _ _ (inv_protocol _ _ _ Hinv)) as Htok.
  destruct (starter s); simpl in *; lia.
Qed.

(** X4: a running worker never waits: whenever the process runs, each
    worker can perform its next send, of a pixel or of its token. *)
Theorem workers_never_block s i w :
  reachable cfg s → status s = Running → workers s !! i = Some w →
  is_Some (step cfg (TWorker i) s).
Proof.
  intros Hreach Hrun Hi. pose proof (reachable_pipeline s Hreach) as Hinv.
  destruct (emitted_bound s Hinv) as [Hem Hle].
  pose proof (inv_channel _ _ _ Hinv) as Hchan.
  apply (f_equal length) in Hchan. rewrite length_app in Hchan.
  pose proof (inv_tokens _ _ _ (inv_protocol _ _ _ Hinv)) as Htok.
  pose proof (inv_workers _ _ _ Hinv) as Hwf.
  rewrite Forall_lookup in Hwf. destruct (Hwf i w Hi) as [ps ->].
  apply lookup_lt_Some in Hi as Hlt.
  unfold step, calculatorWorker_step. rewrite decide_True by done. rewrite Hi.
  destruct ps as [|p ps]; simpl.
  - rewrite decide_True; [by eexists|].
    destruct (starter s); simpl in *; [|lia..].
    destruct Htok as (_ & _ & Hnil & _). rewrite Hnil in Hlt. simpl in Hlt. lia.
  - rewrite decide_True; [by eexists|].
    assert (0 < length (pending (workers s)))%nat; [|lia].
    rewrite <- (take_drop_middle _ _ _ Hi). unfold pending.
    rewrite bind_app, bind_cons, !length_app. simpl. lia.
Qed.


(** *** How a run ends *)

Lemma quiescent_idle s :
  pipeline_inv cfg regions s → quiescent cfg s → status s = Running →
  workers s = [] ∧ pixelBuffer s = [] ∧ drawer_done s = false.
Proof.
  intros Hinv Hq Hrun.
  pose proof (Hq TDrawer) as Hdr. pose proof (Hq TMain) as Hmain.
  pose proof (Hq (TWorker 0)) as Hwk0.
  unfold step in Hdr, Hmain, Hwk0. rewrite decide_True in Hdr, Hmain, Hwk0 by done.
  destruct (numOfPixels_valid cfg Hvalid) as [_ Hpix1].
  destruct Hinv as [[_ _ _ Htok] Hwf _ _ _ _ _ _ _ _ _].
  destruct s as [st wb ft pb pc wk img cnt dd disp em co]; simpl in *.
  unfold main_step in Hmain; simpl in Hmain. destruct dd; [done|].
  unfold drawingWorker_step in Hdr; cbn -[drawer_body] in Hdr.
  destruct pb as [|p pb];
    [|by destruct (drawer_body cfg p img cnt) as [[? ?] [?|]]].
  split_and!; [|done..].
  destruct wk as [|w0 wk]; [done|]. exfalso.
  apply Forall_cons in Hwf as [[ps ->] _].
  unfold calculatorWorker_step in Hwk0; simpl in Hwk0.
  destruct ps as [|p ps]; simpl in Hwk0.
  - destruct pc; simpl in *; [by destruct Htok as (_ & _ & ? & _)|..];
      rewrite decide_True in Hwk0 by lia; done.
  - rewrite decide_True in Hwk0 by lia. done.
Qed.

Lemma divides_cells :
  (r | width cfg) → (r | height cfg) →
  r * work_width = width cfg ∧ r * work_height = height cfg.
Proof.
  destruct grid_bounds as (Hr & _). intros [a Ha] [b Hb].
  rewrite Ha, Hb, !Z.div_mul by lia. lia.
Qed.

Lemma quiescent_exited s :
  (r | width cfg) → (r | height cfg) → no_progress_panic cfg →
  pipeline_inv cfg regions s → quiescent cfg s →
  status s = Exited ∧ drawer_done s = true.
Proof.
  intros Hdw Hdh Hnp Hinv Hq. destruct (divides_cells Hdw Hdh) as [Hrw Hrh].
  destruct (status s) eqn:Hst.
  - exfalso. destruct (quiescent_idle s Hinv Hq Hst) as (Hwk & Hpb & Hdd).
    pose proof (quiescent_dispatched s Hinv Hq Hst) as Hall.
    pose proof (inv_work _ _ _ (inv_protocol _ _ _ Hinv)) as Hwork.
    rewrite Hall in Hwork. rewrite <- (app_nil_r regions) in Hwork at 2.
    apply app_inv_head in Hwork.
    pose proof all_pixels_length as Hlen.
    rewrite <- (inv_pixels _ _ _ Hinv), Hwork, Hwk, (inv_channel _ _ _ Hinv), Hpb in Hlen.
    rewrite !length_app in Hlen. simpl in Hlen.
    destruct (inv_count _ _ _ Hinv) as [Hcnt _].
    pose proof (inv_not_done _ _ _ Hinv) as Hnot. rewrite Hst in Hnot.
    specialize (Hnot ltac:(done) Hdd).
    destruct (numOfPixels_valid cfg Hvalid) as [Hn _]. nia.
  - by destruct (inv_no_panic _ _ _ Hinv Hnp).
  - split; [done|]. apply (inv_exit _ _ _ Hinv). by rewrite Hst.
Qed.

(** X6: when the cells divide the image and the progress test cannot
    panic, the pipeline cannot get stuck: a run has at most as many steps as
    the initial state has left, and once no goroutine can move, the drawer
    is done with all [width * height] pixels and [main] has returned. *)
Theorem run_always_completes s0 sched s :
  (r | width cfg) → (r | height cfg) → no_progress_panic cfg →
  init cfg = Some s0 → run cfg sched s0 = Some s →
  (length sched ≤ steps_left cfg s0)%nat
  ∧ (quiescent cfg s →
       status s = Exited ∧ drawer_done s = true
       ∧ pixelCount s = width cfg * height cfg).
Proof.
  intros Hdw Hdh Hnp Hinit Hrun.
  split; [pose proof (run_bounded cfg sched s0 s Hrun); lia|].
  intros Hq.
  assert (pipeline_inv cfg regions s) as Hinv
    by (apply reachable_pipeline; by exists s0, sched).
  destruct (quiescent_exited s Hdw Hdh Hnp Hinv Hq) as [Hex Hdd].
  split_and!; [done..|].
  rewrite (inv_done _ _ _ Hinv Hdd). by destruct (numOfPixels_valid cfg Hvalid).
Qed.

(** X20: when the cells do not divide the image and the progress test
    cannot panic, a run ends in a deadlock: once no goroutine can move,
    [main] has not returned and nothing has panicked, so the process ends
    by the runtime's deadlock error; every region was dispatched and every
    worker has returned its token, the drawer has drawn the
    [r * (width/r)] by [r * (height/r)] pixels there are and waits for
    more, and [main] waits for the drawer. *)
Theorem uneven_grid_deadlocks s :
  ¬ ((r | width cfg) ∧ (r | height cfg)) → no_progress_panic cfg →
  reachable cfg s → quiescent cfg s →
  process_end_of cfg s = Some DeadlockAbort ∧ drawer_done s = false
  ∧ dispatched s = regions ∧ workers s = [] ∧ pixelBuffer s = []
  ∧ Z.of_nat (length (freeThreads s)) = numThreads cfg
  ∧ pixelCount s = (r * work_width) * (r * work_height)
  ∧ pixelCount s < width cfg * height cfg.
Proof.
  intros Hndiv Hnp Hreach Hq. pose proof (reachable_pipeline s Hreach) as Hinv.
  assert (status s = Running) as Hst.
  { destruct (status s) eqn:Hst; [done|by destruct (inv_no_panic _ _ _ Hinv Hnp)|].
    pose proof (inv_exit _ _ _ Hinv Hst) as Hdd.
    destruct (done_everything_received s Hinv Hdd) as (_ & _ & _ & Hrw & Hrh & _).
    destruct Hndiv. split; [exists work_width|exists work_height]; lia. }
  destruct (quiescent_idle s Hinv Hq Hst) as (Hwk & Hpb & Hdd).
  pose proof (quiescent_dispatched s Hinv Hq Hst) as Hall.
  destruct (all_dispatched_starter s Hinv Hall) as [Hwb Hpc].
  pose proof (inv_tokens _ _ _ (inv_protocol _ _ _ Hinv)) as Htok.
  pose proof (emitted_of_dispatched s Hinv) as Hperm.
  rewrite Hwk, Hall, (inv_channel _ _ _ Hinv), Hpb in Hperm. simpl in Hperm.
  rewrite !app_nil_r in Hperm.
  pose proof all_pixels_length as Hlen. rewrite <- Hperm in Hlen.
  destruct (inv_count _ _ _ Hinv) as [Hcnt _].
  pose proof (inv_not_done _ _ _ Hinv) as Hnot. rewrite Hst in Hnot.
  specialize (Hnot ltac:(done) Hdd).
  destruct (numOfPixels_valid cfg Hvalid) as [Hn _].
  split_and!; try done; try lia.
  - by rewrite (process_end_quiescent cfg s Hq), Hst.
  - destruct Hpc as [Hpc|[wc Hpc]]; rewrite Hpc, Hwk in Htok; simpl in Htok; lia.
Qed.

Lemma regions_count : Z.of_nat (length regions) = r * r.
Proof.
  destruct grid_bounds as (Hr & _). rewrite regions_grid, grid_length by lia. nia.
Qed.

(** X7: the starter returns only when the task count is a perfect square,
    and then exactly when the last region has been dispatched; otherwise,
    after the last region, it waits on the empty [workBuffer] with
    [numWorkTasks - r*r] left on its counter, for good. *)
Theorem starter_returns_iff_square s :
  reachable cfg s →
  (starter s = StarterReturned →
     numWorkTasks cfg = r * r ∧ dispatched s = regions)
  ∧ (dispatched s = regions →
       if decide (numWorkTasks cfg = r * r) then starter s = StarterReturned
       else starter s = RangeRecv (numWorkTasks cfg - r * r)
            ∧ workBuffer s = []
            ∧ calculatorWorkerStarter_step cfg s = None).
Proof.
  intros Hreach. pose proof (reachable_pipeline s Hreach) as Hinv.
  pose proof (inv_work _ _ _ (inv_protocol _ _ _ Hinv)) as Hwork.
  pose proof (inv_counter _ _ _ Hinv) as Hcounter.
  pose proof regions_count as Hcount. pose proof regions_length as Hlen.
  split.
  - intros Hret. rewrite Hret in Hwork, Hcounter. simpl in *.
    rewrite <- Hwork, length_app in Hcount, Hlen.
    assert (length (workBuffer s) = 0%nat) as Hwb by lia.
    apply nil_length_inv in Hwb. rewrite Hwb, app_nil_r in Hwork.
    split; [|done]. rewrite Hwb in Hcount. simpl in Hcount. lia.
  - intros Hall. destruct (all_dispatched_starter s Hinv Hall) as [Hwb Hpc].
    rewrite Hall in Hcounter.
    destruct Hpc as [Hpc|[wc Hpc]]; rewrite Hpc in Hcounter; simpl in Hcounter.
    + rewrite decide_True by lia. done.
    + destruct Hcounter as [-> Hwc]. rewrite decide_False by lia.
      split_and!; [by rewrite Hpc, Hcount|done|].
      unfold calculatorWorkerStarter_step. by rewrite Hpc, Hwb.
Qed.

(** X8: the regions cover the rectangle of [r * (width/r)] by
    [r * (height/r)] pixels, each of its pixels once, and nothing else; a
    remainder of the division leaves the last columns or rows of the image
    to no region. *)
Theorem workCreator_covers_truncated :
  (∀ p, length (filter (λ w, contains w p) regions)
        = if decide ((0 ≤ p.1 < r * work_width) ∧ (0 ≤ p.2 < r * work_height))
          then 1%nat else 0%nat)
  ∧ (¬ (r | width cfg) → ∀ y w, w ∈ regions → ¬ contains w (width cfg - 1, y))
  ∧ (¬ (r | height cfg) → ∀ x w, w ∈ regions → ¬ contains w (x, height cfg - 1)).
Proof.
  destruct grid_bounds as (Hr & Hww & Hwh & Hrw & Hrh).
  assert (∀ p, length (filter (λ w, contains w p) regions)
        = if decide ((0 ≤ p.1 < r * work_width) ∧ (0 ≤ p.2 < r * work_height))
          then 1%nat else 0%nat) as Hcount.
  { intros p. rewrite regions_grid. apply count_grid; lia. }
  split; [done|]. split.
  - intros Hndiv y w Hw Hc.
    assert (r * work_width ≠ width cfg) as Hne
      by (intros Heq; apply Hndiv; exists work_width; lia).
    pose proof (proj1 (region_exists_count regions (width cfg - 1, y))
                  (ex_intro _ w (conj Hw Hc))) as Hpos.
    rewrite Hcount in Hpos. case_decide as Hin; simpl in *; lia.
  - intros Hndiv x w Hw Hc.
    assert (r * work_height ≠ height cfg) as Hne
      by (intros Heq; apply Hndiv; exists work_height; lia).
    pose proof (proj1 (region_exists_count regions (x, height cfg - 1))
                  (ex_intro _ w (conj Hw Hc))) as Hpos.
    rewrite Hcount in Hpos. case_decide as Hin; simpl in *; lia.
Qed.

Lemma sum_list_const {X} (f : X → nat) (l : list X) (k : nat) :
  (∀ x, x ∈ l → f x = k) → sum_list (f <$> l) = (length l * k)%nat.
Proof.
  induction l as [|x l IH]; intros Hk; [done|].
  rewrite fmap_cons. simpl. rewrite Hk, IH by set_solver. lia.
Qed.

Lemma sends_cost (ps : list pixel) :
  sum_list (op_cost <$> ((SendPixel <$> ps) ++ [SendFreeThread]))
  = (2 * length ps + 1)%nat.
Proof.
  induction ps as [|p ps IH]; [done|].
  rewrite fmap_cons, <- app_comm_cons, fmap_cons. cbn [sum_list_with length op_cost].
  rewrite IH. unfold id. lia.
Qed.

Lemma region_cost_valid w :
  w ∈ regions →
  region_cost cfg w = (4 + 2 * (Z.to_nat work_width * Z.to_nat work_height))%nat.
Proof.
  rewrite regions_grid. intros (i & j & _ & _ & ->)%grid_elem.
  unfold region_cost. rewrite calculatorWorker_region. simpl.
  rewrite sends_cost, region_pixels_valid, length_fmap, visit_order_length.
  unfold grid_cell. simpl.
  replace ((i + 1) * work_width - i * work_width) with work_width by lia.
  replace ((j + 1) * work_height - j * work_height) with work_height by lia.
  lia.
Qed.

(** X9: a run takes at most
    [2 + numThreads + r*r * (4 + 2 * (width/r) * (height/r))] steps, whatever
    the scheduler does: per pixel one send and one receive, per region
    three steps of the starter and the return of the token. *)
Theorem run_length_bound s0 sched s :
  init cfg = Some s0 → run cfg sched s0 = Some s →
  Z.of_nat (length sched)
  ≤ 2 + numThreads cfg + r * r * (4 + 2 * (work_width * work_height)).
Proof.
  intros Hinit Hrun. pose proof (run_bounded cfg sched s0 s Hrun) as Hle.
  destruct grid_bounds as (Hr & Hww & Hwh & _).
  pose proof regions_count as Hcount.
  unfold init in Hinit. rewrite Hregions in Hinit. simpl in Hinit.
  repeat case_decide; simplify_eq.
  unfold steps_left in Hle. simpl in Hle.
  rewrite (sum_list_const _ _ _ region_cost_valid) in Hle.
  destruct Hvalid as [_ _ _ _ Hth _ _]. nia.
Qed.

(** *** The raster of a complete run *)

Lemma sequential_loop_fold (todo : list (Z * Z)) (img : gmap (Z * Z) RGBA) :
  sequential_loop cfg todo img
  = Some (foldl (λ i p, image_set cfg p i) img (pixel_at cfg <$> todo)).
Proof.
  revert img. induction todo as [|q todo IH]; intros img; [done|].
  simpl. rewrite compute_pixel_pixel_at by done. simpl. apply IH.
Qed.

Lemma whole_image_elem q :
  q ∈ visit_order (WorkRange 0 (width cfg) 0 (height cfg)) ↔ in_image cfg q.
Proof. by rewrite visit_order_elem. Qed.

Lemma sequential_lookup q :
  ∃ m, sequential_raster cfg = Some m
    ∧ m !! q = if decide (in_image cfg q) then Some (col (pixel_at cfg q)) else None.
Proof.
  unfold sequential_raster. rewrite sequential_loop_fold. eexists. split; [done|].
  set (todo := visit_order (WorkRange 0 (width cfg) 0 (height cfg))).
  assert (coord <$> (pixel_at cfg <$> todo) = todo) as Hcoords.
  { rewrite <- list_fmap_compose. rewrite <- (list_fmap_id todo) at 2.
    apply list_fmap_ext. intros _ q' _. apply coord_pixel_at. }
  case_decide as Hin.
  - rewrite <- (coord_pixel_at q) at 1. apply image_fold_lookup.
    + rewrite Hcoords. apply visit_order_NoDup.
    + apply list_elem_of_fmap_2. by apply whole_image_elem.
    + by rewrite coord_pixel_at.
  - rewrite image_fold_other; [done|]. rewrite Hcoords. unfold todo.
    by rewrite whole_image_elem.
Qed.


(** X11: a complete run of the pipeline leaves the raster of the
    sequential program, whatever the scheduler did. *)
Theorem raster_is_sequential s :
  reachable cfg s → drawer_done s = true → sequential_raster cfg = Some (image s).
Proof.
  intros Hreach Hdd. pose proof (reachable_pipeline s Hreach) as Hinv.
  destruct (sequential_lookup (0, 0)) as (m & Hm & _). rewrite Hm. f_equal.
  apply map_eq. intros q.
  destruct (sequential_lookup q) as (m' & Hm' & Hq). simplify_eq. rewrite Hq.
  destruct (done_everything_received s Hinv Hdd) as (_ & _ & _ & _ & _ & Hco & _).
  destruct (done_coords s Hinv Hdd) as [Hnd Hcov].
  destruct (emitted_safe s Hinv) as [_ Hsafe].
  rewrite (inv_image _ _ _ Hinv), Hco.
  case_decide as Hin.
  - apply Hcov in Hin. apply list_elem_of_fmap in Hin as (p & -> & Hp).
    destruct (Hsafe p Hp) as (Himg & Heq & _).
    rewrite image_fold_lookup by done. by rewrite <- Heq.
  - rewrite image_fold_other; [done|]. by rewrite Hcov.
Qed.

End ValidRun.

(** ** Edge behaviour *)

Section Edges.
Context `{ops : Complex64Ops}.
Variable cfg : config.

(** X12: with fewer than ten pixels and progress printed, no run completes:
    the drawer never gets past its first pixel, at which the process
    panics. *)
Theorem small_image_never_completes s :
  printDrawingProgress cfg = true → numOfPixels cfg < 10 →
  reachable cfg s →
  drawer_done s = false ∧ status s ≠ Exited
  ∧ (consumed s = [] ∨ (status s = Panicked ∧ length (consumed s) = 1%nat)).
Proof.
  intros Hprint Hsmall (s0 & sched & Hinit & Hrun).
  assert (0 ≤ numOfPixels cfg) as Hpos.
  { unfold init in Hinit. case_decide as Hg; [|done]. by destruct Hg as (_ & _ & ? & _). }
  assert (drawer_done s0 = false ∧ status s0 ≠ Exited
          ∧ (consumed s0 = [] ∨ (status s0 = Panicked ∧ length (consumed s0) = 1%nat)))
    as Hinv.
  { unfold init in Hinit. case_decide; [|done].
    destruct (workCreator cfg); [|done]. simpl in Hinit.
    case_decide; simplify_eq. simpl. split_and!; [done..|by left]. }
  clear Hinit. revert s0 Hinv Hrun.
  induction sched as [|th sched IH]; intros s0 Hinv Hrun; simpl in Hrun.
  { by simplify_eq. }
  destruct (step cfg th s0) as [s1|] eqn:Hstep; [|done]. simpl in Hrun.
  apply (IH s1); [|done]. clear IH Hrun.
  destruct Hinv as (Hdd & _ & Hco).
  unfold step in Hstep. case_decide as Hst; [|done].
  destruct Hco as [Hco|[? _]]; [|congruence].
  destruct s0 as [st wb ft pb pc wk img cnt dd disp em co]; simpl in *. subst.
  destruct th as [|i| |].
  - unfold calculatorWorkerStarter_step in Hstep; simpl in Hstep.
    repeat case_match; simplify_eq; simpl; split_and!; by auto.
  - unfold calculatorWorker_step in Hstep; simpl in Hstep.
    repeat case_match; simplify_eq; simpl; split_and!; by auto.
  - unfold drawingWorker_step in Hstep; cbn -[drawer_body] in Hstep.
    destruct pb as [|p pb]; [done|].
    rewrite drawer_body_panics in Hstep by (done || lia).
    simplify_eq. simpl. split_and!; [done..|by right].
  - done.
Qed.

(** X13: with a zero iteration bound a worker panics on the division at
    its first pixel, before it sends anything; only a worker with an empty
    region gets through, and returns its token. *)
Theorem zero_bound_worker_panics work :
  MAX_ITER cfg = 0 →
  calculatorWorker cfg work
  = if decide (minX work < maxX work ∧ minY work < maxY work)
    then None else Some [SendFreeThread].
Proof.
  intros Hzero. unfold calculatorWorker, worker_pixels.
  assert (∀ q, compute_pixel cfg q = None) as Hnone.
  { intros q. unfold compute_pixel, pixel_color, GoInt.div. by rewrite Hzero. }
  pose proof (visit_order_length work) as Hlen.
  destruct (visit_order work) as [|q todo]; simpl in *.
  - rewrite decide_False by lia. done.
  - rewrite decide_True by lia. by rewrite Hnone.
Qed.

(** X14: the loop of [mandelbrotCalc] runs at least once when the bound is
    positive and zero passes the escape test, so the count is at least 1. *)
Theorem mandelbrotCalc_at_least_one (c : complex64) :
  re_within_bound c_zero = true → 1 ≤ MAX_ITER cfg → 1 ≤ mandelbrotCalc cfg c.
Proof.
  intros Hzero Hmax. unfold mandelbrotCalc. simp mandelbrot_loop.
  destruct (decide (re_within_bound c_zero = true ∧ 0 < MAX_ITER cfg)) as [?|Hn];
    simpl; [|destruct Hn; split; [done|lia]].
  pose proof (mandelbrot_loop_spec cfg c (c_sq_add c_zero c) (0 + 1)) as Hspec.
  simpl in Hspec. lia.
Qed.

(** X15: the grey of a pixel falls as its iteration count rises: white
    (255) at count 0, black (0) at the bound. *)
Theorem pixel_color_antitone n1 n2 :
  valid_config cfg → 0 ≤ n1 ≤ n2 → n2 ≤ MAX_ITER cfg →
  ∃ v1 v2, pixel_color cfg n1 = Some (MkRGBA v1 v1 v1 254)
    ∧ pixel_color cfg n2 = Some (MkRGBA v2 v2 v2 254)
    ∧ 0 ≤ v2 ≤ v1 ∧ v1 ≤ 255
    ∧ pixel_color cfg 0 = Some (MkRGBA 255 255 255 254)
    ∧ pixel_color cfg (MAX_ITER cfg) = Some (MkRGBA 0 0 0 254).
Proof.
  intros Hv Hn1 Hn2. pose proof (valid_iter _ Hv) as Hmax.
  destruct (pixel_color_shade cfg n1 Hv ltac:(lia)) as [H1 Hb1].
  destruct (pixel_color_shade cfg n2 Hv ltac:(lia)) as [H2 Hb2].
  destruct (pixel_color_shade cfg 0 Hv ltac:(lia)) as [H0 _].
  destruct (pixel_color_shade cfg (MAX_ITER cfg) Hv ltac:(lia)) as [Hm _].
  exists (shade cfg n1), (shade cfg n2).
  split; [done|]. split; [done|]. split.
  { split; [lia|]. unfold shade.
    assert ((n1 * 255) `div` MAX_ITER cfg ≤ (n2 * 255) `div` MAX_ITER cfg)
      by (apply Z.div_le_mono; lia). lia. }
  split; [lia|]. split.
  - rewrite H0. unfold shade. by rewrite Z.mul_0_l, Z.div_0_l by lia.
  - rewrite Hm. unfold shade.
    by rewrite (Z.mul_comm (MAX_ITER cfg) 255), Z.div_mul by lia.
Qed.

(** X16: on a stream of [numOfPixels] pixels or more the drawer breaks at
    pixel number [numOfPixels] and leaves the rest unread; on a shorter one
    it has drawn them all and waits. *)
Theorem drawingWorker_short_circuit (ps rest : list pixel) :
  valid_config cfg → no_progress_panic cfg →
  (Z.of_nat (length ps) = numOfPixels cfg →
     drawingWorker cfg (ps ++ rest) ∅ 0
     = DrawerDone (foldl (λ i p, image_set cfg p i) ∅ ps) (numOfPixels cfg))
  ∧ (Z.of_nat (length ps) < numOfPixels cfg →
     drawingWorker cfg ps ∅ 0
     = DrawerWaiting (foldl (λ i p, image_set cfg p i) ∅ ps) (Z.of_nat (length ps))).
Proof.
  intros Hv Hnp. destruct (numOfPixels_valid cfg Hv) as [_ H1]. split; intros Hlen.
  - rewrite drawingWorker_counts by (done || lia).
    rewrite decide_False by (rewrite length_app; lia).
    rewrite Z.sub_0_r, <- Hlen, Nat2Z.id. by rewrite take_app_length.
  - rewrite drawingWorker_counts by (done || lia). by rewrite decide_True by lia.
Qed.

End Edges.

(** X19: lowering the iteration bound only clips the count: with the bound
    [MAX_ITER] of [cfg1] at most that of [cfg2], the count under [cfg1] is
    the smaller of its bound and the count under [cfg2]. *)
Theorem mandelbrotCalc_cap `{ops : Complex64Ops} (cfg1 cfg2 : config) (c : complex64) :
  0 ≤ MAX_ITER cfg1 ≤ MAX_ITER cfg2 →
  mandelbrotCalc cfg1 c = Z.min (MAX_ITER cfg1) (mandelbrotCalc cfg2 c).
Proof.
  intros [H0 Hle].
  destruct (mandelbrotCalc_spec cfg1 c H0) as (Hb1 & Hin1 & Hout1).
  destruct (mandelbrotCalc_spec cfg2 c ltac:(lia)) as (Hb2 & Hin2 & Hout2).
  set (n1 := mandelbrotCalc cfg1 c) in *. set (n2 := mandelbrotCalc cfg2 c) in *.
  destruct (Z.lt_trichotomy n1 (Z.min (MAX_ITER cfg1) n2)) as [Hlt|[Heq|Hgt]]; [|done|].
  - exfalso. specialize (Hout1 ltac:(lia)).
    specialize (Hin2 (Z.to_nat n1) ltac:(lia)). congruence.
  - exfalso. assert (n2 < n1) as Hlt by lia.
    specialize (Hout2 ltac:(lia)).
    specialize (Hin1 (Z.to_nat n2) ltac:(lia)). congruence.
Qed.

(** ** The scenarios *)

Lemma scenario_4x4_regions :
  workCreator scenario_4x4
  = Some [WorkRange 0 2 0 2; WorkRange 0 2 2 4; WorkRange 2 4 0 2; WorkRange 2 4 2 4].
Proof. reflexivity. Qed.

(** The starter has returned while two workers are still running. *)
Example starter_returns_before_workers :
  (λ s, (status s, starter s, length (workers s), length (dispatched s)))
    <$> run_4x4 (take 25 schedule_4x4)
  = Some (Running, StarterReturned, 2%nat, 4%nat).
Proof. vm_compute. reflexivity. Qed.

(** The run ends after 52 steps, as many as the initial state has left. *)
Example schedule_4x4_ends :
  (λ s, (status s, length (emitted s), pixelCount s, drawer_done s))
    <$> run_4x4 schedule_4x4
  = Some (Exited, 16%nat, 16, true)
  ∧ length schedule_4x4 = 52%nat
  ∧ steps_left (ops := Exact.ops) scenario_4x4 <$> init scenario_4x4 = Some 52%nat.
Proof. split_and!; vm_compute; reflexivity. Qed.

(** The whole pipeline on the 2 x 2 image: the process panics when the
    drawer receives the first pixel. *)
Example pipeline_2x2_panics :
  (λ s, (status s, pixelCount s, drawer_done s))
    <$> (s0 ← init scenario_2x2; run (ops := Exact.ops) scenario_2x2 schedule_2x2 s0)
  = Some (Panicked, 1, false).
Proof. vm_compute. reflexivity. Qed.

Lemma run_4x4_reachable sched s :
  run_4x4 sched = Some s → reachable (ops := Exact.ops) scenario_4x4 s.
Proof.
  unfold run_4x4. intros Hrun.
  destruct (init scenario_4x4) as [s0|] eqn:Hinit; [|done].
  by exists s0, sched.
Qed.

(** C1 on the 4 x 4 image cut for four tasks. *)
Lemma workCreator_tiles_witness :
  ∃ ws, workCreator scenario_4x4 = Some ws ∧ length ws = 4%nat
    ∧ ∀ p, length (filter (λ w, contains w p) ws)
           = if decide (in_image scenario_4x4 p) then 1%nat else 0%nat.
Proof.
  destruct (workCreator_tiles scenario_4x4 scenario_4x4_valid)
    as (ws & Hws & _ & Hlen & _ & Htile).
  exists ws. split; [exact Hws|]. split; [exact Hlen|].
  apply Htile; by exists 2.
Defined.


(** C6 on the first region of the 4 x 4 image. *)
Lemma worker_visits_x_major_witness :
  ∃ ps, calculatorWorker (ops := Exact.ops) scenario_4x4 (WorkRange 0 2 0 2)
        = Some ((SendPixel <$> ps) ++ [SendFreeThread])
    ∧ coord <$> ps = [(0, 0); (0, 1); (1, 0); (1, 1)].
Proof.
  destruct (worker_visits_x_major (ops := Exact.ops) scenario_4x4 (WorkRange 0 2 0 2)
              scenario_4x4_valid) as (ps & Hw & Hc & _).
  exists ps. split; [exact Hw|]. rewrite Hc. reflexivity.
Defined.

(** C10 on the first region of the 4 x 4 image: the worker sends the pixel
    of the top-left point with intensity 179. *)
Lemma worker_colors_witness :
  ∃ todo, calculatorWorker (ops := Exact.ops) scenario_4x4 (WorkRange 0 2 0 2) = Some todo
    ∧ SendPixel (Pixel 0 0 (MkRGBA 179 179 179 254)) ∈ todo.
Proof.
  destruct (worker_colors (ops := Exact.ops) scenario_4x4 (WorkRange 0 2 0 2)
              scenario_4x4_valid) as (todo & Hw & Hall & _).
  exists todo. split; [exact Hw|].
  destruct (Hall 0 0) as (_ & _ & Hin); [unfold contains; simpl; lia|].
  replace (Pixel 0 0 (MkRGBA 179 179 179 254))
    with (pixel_at (ops := Exact.ops) scenario_4x4 (0, 0)) by (vm_compute; reflexivity).
  exact Hin.
Defined.

(** C4 at the state where both workers run and the starter has returned. *)
Lemma active_workers_bounded_witness :
  ∃ s, run_4x4 (take 25 schedule_4x4) = Some s
    ∧ Z.of_nat (length (workers s)) ≤ numThreads scenario_4x4.
Proof.
  destruct (run_4x4 (take 25 schedule_4x4)) as [s|] eqn:Hs;
    [|vm_compute in Hs; discriminate].
  exists s. split; [reflexivity|].
  apply (active_workers_bounded (ops := Exact.ops) scenario_4x4 s).
  by apply (run_4x4_reachable (take 25 schedule_4x4)).
Defined.

(** C2 at the end of the run of the 4 x 4 scenario. *)
Lemma complete_run_pixels_witness :
  ∃ s, run_4x4 schedule_4x4 = Some s
    ∧ Z.of_nat (length (emitted s)) = 16 ∧ NoDup (coord <$> emitted s).
Proof.
  assert (drawer_done <$> run_4x4 schedule_4x4 = Some true) as Hdone
    by (vm_compute; reflexivity).
  destruct (run_4x4 schedule_4x4) as [s|] eqn:Hs; [|discriminate].
  injection Hdone as Hdone.
  exists s. split; [reflexivity|].
  destruct (complete_run_pixels (ops := Exact.ops) scenario_4x4 scenario_4x4_valid
              _ scenario_4x4_regions s) as (Hlen & Hnd & _).
  - by apply (run_4x4_reachable schedule_4x4).
  - exact Hdone.
  - split; [exact Hlen|exact Hnd].
Defined.

(** The dispatcher at the end of the run of the 4 x 4 scenario. *)
Lemma dispatcher_dispatches_all_witness :
  ∃ s0 s, init scenario_4x4 = Some s0
    ∧ run (ops := Exact.ops) scenario_4x4 schedule_4x4 s0 = Some s
    ∧ dispatched s ++ in_hand (starter s) ++ workBuffer s
      = [WorkRange 0 2 0 2; WorkRange 0 2 2 4; WorkRange 2 4 0 2; WorkRange 2 4 2 4]
    ∧ (length schedule_4x4 ≤ steps_left (ops := Exact.ops) scenario_4x4 s0)%nat.
Proof.
  destruct (init scenario_4x4) as [s0|] eqn:Hinit; [|vm_compute in Hinit; discriminate].
  destruct (run (ops := Exact.ops) scenario_4x4 schedule_4x4 s0) as [s|] eqn:Hs.
  - exists s0, s. split; [reflexivity|]. split; [exact Hs|].
    destruct (dispatcher_dispatches_all (ops := Exact.ops) scenario_4x4
                scenario_4x4_valid _ scenario_4x4_regions s0 schedule_4x4 s Hinit Hs)
      as (Hfifo & Hlen & _).
    split; [exact Hfifo|exact Hlen].
  - vm_compute in Hinit. injection Hinit as <-. vm_compute in Hs. discriminate.
Defined.

Lemma four_tasks_2x2_valid : valid_config four_tasks_2x2.
Proof. split; vm_compute; by try split. Qed.

(** C5 on the 2 x 2 image cut for four tasks: the starter dispatches the
    first region, its worker sends its pixel, and the drawer's progress
    test divides by [4/10 = 0] on receiving it.  The panic ends the process
    with one region of four dispatched and three left in [workBuffer]. *)
Theorem dispatcher_stopped_by_panic :
  valid_config four_tasks_2x2
  ∧ workCreator four_tasks_2x2
    = Some [WorkRange 0 1 0 1; WorkRange 0 1 1 2; WorkRange 1 2 0 1; WorkRange 1 2 1 2]
  ∧ ∃ s0 s, init four_tasks_2x2 = Some s0
      ∧ run (ops := Exact.ops) four_tasks_2x2 schedule_2x2 s0 = Some s
      ∧ quiescent (ops := Exact.ops) four_tasks_2x2 s
      ∧ process_end_of (ops := Exact.ops) four_tasks_2x2 s = Some PanicAbort
      ∧ pixelCount s = 1
      ∧ dispatched s = [WorkRange 0 1 0 1]
      ∧ workBuffer s = [WorkRange 0 1 1 2; WorkRange 1 2 0 1; WorkRange 1 2 1 2].
Proof.
  split; [apply four_tasks_2x2_valid|]. split; [reflexivity|].
  destruct (init four_tasks_2x2) as [s0|] eqn:Hinit; [|vm_compute in Hinit; discriminate].
  assert ((λ s, (status s, pixelCount s, dispatched s, workBuffer s))
            <$> run (ops := Exact.ops) four_tasks_2x2 schedule_2x2 s0
          = Some (Panicked, 1, [WorkRange 0 1 0 1],
                  [WorkRange 0 1 1 2; WorkRange 1 2 0 1; WorkRange 1 2 1 2])) as Hend.
  { vm_compute in Hinit. injection Hinit as <-. vm_compute. reflexivity. }
  destruct (run (ops := Exact.ops) four_tasks_2x2 schedule_2x2 s0) as [s|] eqn:Hs;
    [|discriminate].
  injection Hend as Hst Hcount Hdisp Hwb.
  assert (quiescent (ops := Exact.ops) four_tasks_2x2 s) as Hq.
  { intros th. unfold step. rewrite decide_False; [done|]. by rewrite Hst. }
  exists s0, s. split_and!; try done.
  by rewrite (process_end_quiescent (ops := Exact.ops) four_tasks_2x2 s Hq), Hst.
Qed.

(** ** The further properties on the scenarios *)

Lemma uneven_5x5_valid : valid_config uneven_5x5.
Proof. split; unfold GoInt.max_int; simpl; lia. Qed.

Lemma uneven_5x5_regions :
  workCreator uneven_5x5
  = Some [WorkRange 0 2 0 2; WorkRange 0 2 2 4; WorkRange 2 4 0 2; WorkRange 2 4 2 4].
Proof. reflexivity. Qed.

Lemma scenario_4x4_divides :
  (GoInt.sqrt (numWorkTasks scenario_4x4) | width scenario_4x4)
  ∧ (GoInt.sqrt (numWorkTasks scenario_4x4) | height scenario_4x4).
Proof. split; by exists 2. Qed.

Lemma scenario_4x4_no_panic : no_progress_panic scenario_4x4.
Proof. right. vm_compute. discriminate. Qed.

(** X1 while both workers of the 4 x 4 scenario run. *)
Lemma sent_pixels_safe_witness :
  ∃ s, run_4x4 (take 25 schedule_4x4) = Some s ∧ NoDup (coord <$> emitted s).
Proof.
  destruct (run_4x4 (take 25 schedule_4x4)) as [s|] eqn:Hs;
    [|vm_compute in Hs; discriminate].
  exists s. split; [reflexivity|].
  apply (sent_pixels_safe (ops := Exact.ops) scenario_4x4 scenario_4x4_valid
           _ scenario_4x4_regions s).
  by apply (run_4x4_reachable (take 25 schedule_4x4)).
Defined.

(** X2 at the end of the run of the 4 x 4 scenario. *)
Lemma raster_holds_received_witness :
  ∃ s, run_4x4 schedule_4x4 = Some s
    ∧ pixelCount s = Z.of_nat (length (consumed s)).
Proof.
  destruct (run_4x4 schedule_4x4) as [s|] eqn:Hs; [|vm_compute in Hs; discriminate].
  exists s. split; [reflexivity|].
  apply (raster_holds_received (ops := Exact.ops) scenario_4x4 scenario_4x4_valid
           _ scenario_4x4_regions s).
  by apply (run_4x4_reachable schedule_4x4).
Defined.

(** X3 while both workers of the 4 x 4 scenario run. *)
Lemma channels_within_capacity_witness :
  ∃ s, run_4x4 (take 25 schedule_4x4) = Some s
    ∧ Z.of_nat (length (emitted s)) ≤ numOfPixels scenario_4x4.
Proof.
  destruct (run_4x4 (take 25 schedule_4x4)) as [s|] eqn:Hs;
    [|vm_compute in Hs; discriminate].
  exists s. split; [reflexivity|].
  apply (channels_within_capacity (ops := Exact.ops) scenario_4x4 scenario_4x4_valid
           _ scenario_4x4_regions s).
  by apply (run_4x4_reachable (take 25 schedule_4x4)).
Defined.

(** X4 for the first of the two workers running in the 4 x 4 scenario. *)
Lemma workers_never_block_witness :
  ∃ s, run_4x4 (take 25 schedule_4x4) = Some s
    ∧ is_Some (step (ops := Exact.ops) scenario_4x4 (TWorker 0) s).
Proof.
  assert (∃ w, (λ s, (status s, workers s !! 0%nat)) <$> run_4x4 (take 25 schedule_4x4)
               = Some (Running, Some w)) as [w Hw]
    by (vm_compute; eexists; reflexivity).
  destruct (run_4x4 (take 25 schedule_4x4)) as [s|] eqn:Hs; [|discriminate].
  injection Hw as Hrun Hi.
  exists s. split; [reflexivity|].
  apply (workers_never_block (ops := Exact.ops) scenario_4x4 scenario_4x4_valid
           _ scenario_4x4_regions s 0%nat w).
  - by apply (run_4x4_reachable (take 25 schedule_4x4)).
  - exact Hrun.
  - exact Hi.
Defined.


(** X6 on the run of the 4 x 4 scenario. *)
Lemma run_always_completes_witness :
  ∃ s0 s, init scenario_4x4 = Some s0
    ∧ run (ops := Exact.ops) scenario_4x4 schedule_4x4 s0 = Some s
    ∧ (length schedule_4x4 ≤ steps_left (ops := Exact.ops) scenario_4x4 s0)%nat.
Proof.
  destruct (init scenario_4x4) as [s0|] eqn:Hinit; [|vm_compute in Hinit; discriminate].
  destruct (run (ops := Exact.ops) scenario_4x4 schedule_4x4 s0) as [s|] eqn:Hs.
  - exists s0, s. split; [reflexivity|]. split; [exact Hs|].
    apply (run_always_completes (ops := Exact.ops) scenario_4x4 scenario_4x4_valid
             _ scenario_4x4_regions s0 schedule_4x4 s
             (proj1 scenario_4x4_divides) (proj2 scenario_4x4_divides)
             scenario_4x4_no_panic Hinit Hs).
  - vm_compute in Hinit. injection Hinit as <-. vm_compute in Hs. discriminate.
Defined.

(** X7 when the starter of the 4 x 4 scenario has returned. *)
Lemma starter_returns_iff_square_witness :
  ∃ s, run_4x4 (take 25 schedule_4x4) = Some s
    ∧ numWorkTasks scenario_4x4
      = GoInt.sqrt (numWorkTasks scenario_4x4) * GoInt.sqrt (numWorkTasks scenario_4x4).
Proof.
  assert (starter <$> run_4x4 (take 25 schedule_4x4) = Some StarterReturned) as Hpc
    by (vm_compute; reflexivity).
  destruct (run_4x4 (take 25 schedule_4x4)) as [s|] eqn:Hs; [|discriminate].
  injection Hpc as Hpc.
  exists s. split; [reflexivity|].
  apply (starter_returns_iff_square (ops := Exact.ops) scenario_4x4 scenario_4x4_valid
           _ scenario_4x4_regions s).
  - by apply (run_4x4_reachable (take 25 schedule_4x4)).
  - exact Hpc.
Defined.

(** X8 on the 5 x 5 image: its last column lies in no region. *)
Lemma workCreator_covers_truncated_witness :
  ¬ contains (WorkRange 2 4 2 4) (width uneven_5x5 - 1, 3).
Proof.
  apply (workCreator_covers_truncated uneven_5x5 uneven_5x5_valid
           _ uneven_5x5_regions).
  - intros [a Ha]. change (5 = a * 2) in Ha. lia.
  - repeat constructor.
Defined.

(** X9 on the run of the 4 x 4 scenario: 52 steps. *)
Lemma run_length_bound_witness :
  ∃ s0 s, init scenario_4x4 = Some s0
    ∧ run (ops := Exact.ops) scenario_4x4 schedule_4x4 s0 = Some s
    ∧ Z.of_nat (length schedule_4x4) ≤ 52.
Proof.
  destruct (init scenario_4x4) as [s0|] eqn:Hinit; [|vm_compute in Hinit; discriminate].
  destruct (run (ops := Exact.ops) scenario_4x4 schedule_4x4 s0) as [s|] eqn:Hs.
  - exists s0, s. split; [reflexivity|]. split; [exact Hs|].
    apply (run_length_bound (ops := Exact.ops) scenario_4x4 scenario_4x4_valid
             _ scenario_4x4_regions s0 schedule_4x4 s Hinit Hs).
  - vm_compute in Hinit. injection Hinit as <-. vm_compute in Hs. discriminate.
Defined.


(** X11 at the end of the run of the 4 x 4 scenario. *)
Lemma raster_is_sequential_witness :
  ∃ s, run_4x4 schedule_4x4 = Some s
    ∧ sequential_raster (ops := Exact.ops) scenario_4x4 = Some (image s).
Proof.
  assert (drawer_done <$> run_4x4 schedule_4x4 = Some true) as Hdone
    by (vm_compute; reflexivity).
  destruct (run_4x4 schedule_4x4) as [s|] eqn:Hs; [|discriminate].
  injection Hdone as Hdone.
  exists s. split; [reflexivity|].
  apply (raster_is_sequential (ops := Exact.ops) scenario_4x4 scenario_4x4_valid
           _ scenario_4x4_regions s).
  - by apply (run_4x4_reachable schedule_4x4).
  - exact Hdone.
Defined.

(** X12 on the 2 x 2 scenario after the drawer's first pixel. *)
Lemma small_image_never_completes_witness :
  ∃ s0 s, init scenario_2x2 = Some s0
    ∧ run (ops := Exact.ops) scenario_2x2 schedule_2x2 s0 = Some s
    ∧ drawer_done s = false.
Proof.
  destruct (init scenario_2x2) as [s0|] eqn:Hinit; [|vm_compute in Hinit; discriminate].
  destruct (run (ops := Exact.ops) scenario_2x2 schedule_2x2 s0) as [s|] eqn:Hs.
  - exists s0, s. split; [reflexivity|]. split; [exact Hs|].
    apply (small_image_never_completes (ops := Exact.ops) scenario_2x2 s).
    + reflexivity.
    + vm_compute. reflexivity.
    + by exists s0, schedule_2x2.
  - vm_compute in Hinit. injection Hinit as <-. vm_compute in Hs. discriminate.
Defined.

(** X13 on the first region of the 4 x 4 image. *)
Lemma zero_bound_worker_panics_witness :
  calculatorWorker (ops := Exact.ops) zero_bound_4x4 (WorkRange 0 2 0 2) = None.
Proof.
  rewrite (zero_bound_worker_panics (ops := Exact.ops) zero_bound_4x4 (WorkRange 0 2 0 2))
    by reflexivity.
  reflexivity.
Defined.

(** X14 at the top-left point of the 4 x 4 image. *)
Lemma mandelbrotCalc_at_least_one_witness :
  1 ≤ mandelbrotCalc (ops := Exact.ops) scenario_4x4 (Exact.plane scenario_4x4 0 0).
Proof.
  apply (mandelbrotCalc_at_least_one (ops := Exact.ops) scenario_4x4).
  - vm_compute. reflexivity.
  - simpl. lia.
Defined.

(** X15 for the counts 3 and 7 of the 4 x 4 scenario. *)
Lemma pixel_color_antitone_witness :
  pixel_color scenario_4x4 0 = Some (MkRGBA 255 255 255 254)
  ∧ pixel_color scenario_4x4 10 = Some (MkRGBA 0 0 0 254).
Proof.
  destruct (pixel_color_antitone scenario_4x4 3 7 scenario_4x4_valid)
    as (v1 & v2 & _ & _ & _ & _ & Hwhite & Hblack).
  - lia.
  - simpl. lia.
  - split; [exact Hwhite|exact Hblack].
Defined.

(** X16 on the 4 x 4 scenario with a stream of seventeen pixels. *)
Lemma drawingWorker_short_circuit_witness :
  drawingWorker scenario_4x4
    (replicate 16 (Pixel 0 0 (MkRGBA 0 0 0 254)) ++ [Pixel 1 1 (MkRGBA 9 9 9 254)]) ∅ 0
  = DrawerDone {[ (0, 0) := MkRGBA 0 0 0 254 ]} 16.
Proof.
  rewrite (proj1 (drawingWorker_short_circuit scenario_4x4
                    (replicate 16 (Pixel 0 0 (MkRGBA 0 0 0 254)))
                    [Pixel 1 1 (MkRGBA 9 9 9 254)]
                    scenario_4x4_valid scenario_4x4_no_panic))
    by (vm_compute; reflexivity).
  vm_compute. reflexivity.
Defined.

(** X19 for the bounds 10 and 255. *)
Lemma mandelbrotCalc_cap_witness :
  mandelbrotCalc (ops := Exact.ops) scenario_4x4 (Exact.plane scenario_4x4 0 0)
  = Z.min 10 (mandelbrotCalc (ops := Exact.ops) source_config
                (Exact.plane scenario_4x4 0 0)).
Proof.
  apply (mandelbrotCalc_cap (ops := Exact.ops) scenario_4x4 source_config).
  simpl. lia.
Defined.

(** X20 on the 5 x 5 image once its sixteen pixels are drawn. *)
Lemma uneven_grid_deadlocks_witness :
  ∃ s0 s, init uneven_5x5 = Some s0
    ∧ run (ops := Exact.ops) uneven_5x5 schedule_5x5 s0 = Some s
    ∧ process_end_of (ops := Exact.ops) uneven_5x5 s = Some DeadlockAbort
    ∧ drawer_done s = false ∧ workers s = [].
Proof.
  destruct (init uneven_5x5) as [s0|] eqn:Hinit; [|vm_compute in Hinit; discriminate].
  assert ((λ s, (status s, workers s,
                 calculatorWorkerStarter_step (ops := Exact.ops) uneven_5x5 s,
                 drawingWorker_step uneven_5x5 s, main_step s))
            <$> run (ops := Exact.ops) uneven_5x5 schedule_5x5 s0
          = Some (Running, [], None, None, None)) as Hend.
  { vm_compute in Hinit. injection Hinit as <-. vm_compute. reflexivity. }
  destruct (run (ops := Exact.ops) uneven_5x5 schedule_5x5 s0) as [s|] eqn:Hs;
    [|discriminate].
  injection Hend as Hst Hwk Hstarter Hdrawer Hmain.
  exists s0, s. split; [reflexivity|]. split; [exact Hs|].
  destruct (uneven_grid_deadlocks (ops := Exact.ops) uneven_5x5 uneven_5x5_valid
              _ uneven_5x5_regions s) as (Hrun & Hdd & _ & Hw & _).
  - intros [[a Ha] _]. change (5 = a * 2) in Ha. lia.
  - right. vm_compute. discriminate.
  - by exists s0, schedule_5x5.
  - by apply (quiescent_intro (ops := Exact.ops) uneven_5x5 s).
  - split; [exact Hrun|]. split; [exact Hdd|exact Hw].
Defined.
